(** * Verification of the auditor utility module (utils.py)

    The development embeds the six functions of the module
    ([read_csv], [write_csv], [read_json], [str_to_time], [daytime],
    [get_for_id]) as Rocq functions and proves properties of them.

    Python values are modelled as follows.
    - A call that may raise returns a [result]: [Ok v] or [Raise e].
    - A function that returns [None] or a value returns an [option].
    - A dictionary loaded from JSON is a [json] value whose mappings are
      [gmap string json].
    - Files live in a [world] that also records which handles are open.

    The module is available in its compiled form (CPython 3.6 bytecode
    with its docstrings); the statements quoted in the comments are read
    from the bytecode: its comparison operators, constants and jumps.

    The libraries the module calls (dateutil, pytz, csv, json, the text
    layer of [open]) are not part of the module.  The timestamp parser,
    the zone database and the JSON parser are parameters of the sections
    that use them; the csv dialect and the newline handling of text files
    are modelled after the behaviour of CPython 3.6 on a POSIX system. *)

From Stdlib Require Import ZArith Lia Bool Ascii String List.
From stdpp Require Import gmap strings list.

Set Warnings "-register-all".
Local Open Scope Z_scope.

(* ================================================================== *)
(** * Exceptions and results *)
(* ================================================================== *)

Inductive exn : Type :=
  | KeyError
  | TypeError
  | AttributeError
  | IndexError
  | ValueError
  | UnknownTimeZoneError
  | FileNotFoundError
  | CsvError
  | JSONDecodeError
  | UnboundLocalError.

Inductive result (A : Type) : Type :=
  | Ok (a : A)
  | Raise (e : exn).

Arguments Ok {A} a.
Arguments Raise {A} e.

#[global] Instance result_ret : MRet result := fun A a => Ok a.

#[global] Instance result_bind : MBind result := fun A B k r =>
  match r with
  | Ok a => k a
  | Raise e => Raise e
  end.

(* ================================================================== *)
(** * Keyed row lookup: [get_for_id] *)
(* ================================================================== *)

Module Lookup.

(** A table is a two-dimensional list of strings: [list (list string)]. *)

(** [table[x][0]]: both subscripts raise [IndexError] out of range. *)
Definition cell0 (t : list (list string)) (x : nat) : result string :=
  match t !! x with
  | None => Raise IndexError
  | Some r =>
      match r !! 0%nat with
      | None => Raise IndexError
      | Some c => Ok c
      end
  end.

(** The body of [for x in range(lo, len(table))], with [n] iterations left:
    [if id == table[x][0]: return table[x]]. *)
Fixpoint get_for_id_loop (id : string) (t : list (list string)) (x n : nat)
  : result (option (list string)) :=
  match n with
  | O => Ok None
  | S n' =>
      c ← cell0 t x;
      if String.eqb id c then
        match t !! x with
        | Some r => Ok (Some r)
        | None => Raise IndexError
        end
      else get_for_id_loop id t (S x) n'
  end.

(** [for x in range(1, len(table)): ...; return None].  The range starts
    at 1 (the constant loaded before [len(table)] is the integer 1): row 0
    is not examined. *)
Definition get_for_id (id : string) (t : list (list string))
  : result (option (list string)) :=
  get_for_id_loop id t 1 (length t - 1).

(** The lookup as the specification words it: every row is examined, top
    to bottom, none skipped. *)
Definition find_by_id_spec (id : string) (t : list (list string))
  : option (list string) :=
  List.find (fun r => match r with
                      | c :: _ => String.eqb id c
                      | [] => false
                      end) t.

(** A sample table: a header and two students sharing an identifier. *)
Definition students : list (list string) :=
  [ ["STUDENT"; "AIRPLANE"];
    ["S00309"; "738GG"];
    ["S00309"; "133CZ"];
    ["S00324"; "426JQ"] ]%string.

(** The same rows without the header, as a caller might pass them. *)
Definition students_body : list (list string) := drop 1 students.

(** A row whose first cell exists and differs from [id]. *)
Definition other_id (id : string) (r : list string) : Prop :=
  ∃ c, r !! 0%nat = Some c ∧ c ≠ id.

End Lookup.

(* ================================================================== *)
(** * Structured values *)
(* ================================================================== *)

(** What [json.loads] produces: mappings, sequences and scalars. *)
Inductive json : Type :=
  | JNull
  | JBool (b : bool)
  | JNum (z : Z)
  | JStr (s : string)
  | JList (l : list json)
  | JDict (m : gmap string json).

(** [v[k]] for a string key [k]: only a mapping can be subscripted by a
    string, and a missing key raises [KeyError]. *)
Definition getitem (v : json) (k : string) : result json :=
  match v with
  | JDict m =>
      match m !! k with
      | Some x => Ok x
      | None => Raise KeyError
      end
  | _ => Raise TypeError
  end.

(** [k in v.keys()]: only a mapping has [keys]. *)
Definition in_keys (k : string) (v : json) : result bool :=
  match v with
  | JDict m => Ok (bool_decide (is_Some (m !! k)))
  | _ => Raise AttributeError
  end.

(** [prefix + v]: concatenation needs a string on the right. *)
Definition str_add (prefix : string) (v : json) : result string :=
  match v with
  | JStr s => Ok (prefix +:+ s)
  | _ => Raise TypeError
  end.

(* ================================================================== *)
(** * Date-times *)
(* ================================================================== *)

(** A time zone attached to a date-time: a name and a fixed offset from
    UTC in seconds (east positive).  This is what pytz's [localize]
    attaches (one tzinfo object per offset of a zone) and what dateutil
    attaches for an explicit offset in the text. *)
Record tzinfo : Type := mk_tzinfo {
  tz_name : string;
  tz_utcoffset : Z
}.

(** [datetime.datetime]: the clock fields and an optional time zone; a
    date-time with no time zone is naive. *)
Record datetime : Type := mk_datetime {
  year : Z;
  month : Z;
  day : Z;
  hour : Z;
  minute : Z;
  second : Z;
  microsecond : Z;
  dt_tzinfo : option tzinfo
}.

(** [d.replace(tzinfo=tz)]: the clock fields are kept as they are. *)
Definition replace_tzinfo (d : datetime) (tz : option tzinfo) : datetime :=
  {| year := year d; month := month d; day := day d;
     hour := hour d; minute := minute d; second := second d;
     microsecond := microsecond d; dt_tzinfo := tz |}.

(** The clock fields alone. *)
Definition naive (d : datetime) : datetime := replace_tzinfo d None.

Definition is_aware (d : datetime) : bool :=
  match dt_tzinfo d with
  | Some _ => true
  | None => false
  end.

(** ** Formatting *)

Definition digit_char (n : Z) : ascii := ascii_of_nat (48 + Z.to_nat (n mod 10)).

Definition pad2 (n : Z) : string :=
  String (digit_char (n / 10)) (String (digit_char n) EmptyString).

Definition pad4 (n : Z) : string :=
  String (digit_char (n / 1000)) (String (digit_char (n / 100)) (pad2 n)).

(** [d.strftime(fmt)] for the directives the module uses: [%Y] (year with
    century, four digits), [%m], [%d], [%H], [%M], [%S] (two digits, zero
    padded); any other character is copied. *)
Fixpoint strftime (d : datetime) (fmt : string) : string :=
  match fmt with
  | EmptyString => EmptyString
  | String "%" (String c rest) =>
      if Ascii.eqb c "Y" then pad4 (year d) +:+ strftime d rest
      else if Ascii.eqb c "m" then pad2 (month d) +:+ strftime d rest
      else if Ascii.eqb c "d" then pad2 (day d) +:+ strftime d rest
      else if Ascii.eqb c "H" then pad2 (hour d) +:+ strftime d rest
      else if Ascii.eqb c "M" then pad2 (minute d) +:+ strftime d rest
      else if Ascii.eqb c "S" then pad2 (second d) +:+ strftime d rest
      else String "%" (String c (strftime d rest))
  | String c rest => String c (strftime d rest)
  end.

(** ** Ordering *)

(** The proleptic Gregorian ordinal of a date, as [datetime.toordinal]
    computes it. *)
Definition is_leap (y : Z) : bool :=
  (y mod 4 =? 0) && (negb (y mod 100 =? 0) || (y mod 400 =? 0)).

Definition days_before_year (y : Z) : Z :=
  let y1 := y - 1 in y1 * 365 + y1 / 4 - y1 / 100 + y1 / 400.

Definition days_before_month (y m : Z) : Z :=
  nth (Z.to_nat m) [0; 0; 31; 59; 90; 120; 151; 181; 212; 243; 273; 304; 334] 0
  + (if (2 <? m) && is_leap y then 1 else 0).

Definition ymd2ord (y m d : Z) : Z :=
  days_before_year y + days_before_month y m + d.

(** The number of days of a month. *)
Definition days_in_month (y m : Z) : Z :=
  if (m =? 2) && is_leap y then 29
  else nth (Z.to_nat m) [0; 31; 28; 31; 30; 31; 30; 31; 31; 30; 31; 30; 31] 0.

(** A date-time whose fields are in range, as every [datetime] object's
    are. *)
Definition valid_datetime (d : datetime) : Prop :=
  1 ≤ year d
  ∧ 1 ≤ month d ≤ 12
  ∧ 1 ≤ day d ≤ days_in_month (year d) (month d)
  ∧ 0 ≤ hour d < 24
  ∧ 0 ≤ minute d < 60
  ∧ 0 ≤ second d < 60
  ∧ 0 ≤ microsecond d < 1000000.

(** Seconds of the clock fields since the start of day 0. *)
Definition wall_seconds (d : datetime) : Z :=
  ymd2ord (year d) (month d) (day d) * 86400
  + hour d * 3600 + minute d * 60 + second d.

(** The offset from UTC in seconds; 0 for a naive date-time (used only
    between two date-times that are both aware). *)
Definition utcoffset (d : datetime) : Z :=
  match dt_tzinfo d with
  | Some tz => tz_utcoffset tz
  | None => 0
  end.

(** Microseconds since the start of day 0, in UTC. *)
Definition utc_micros (d : datetime) : Z :=
  (wall_seconds d - utcoffset d) * 1000000 + microsecond d.

(** Microseconds of the clock fields since the start of day 0. *)
Definition wall_micros (d : datetime) : Z :=
  wall_seconds d * 1000000 + microsecond d.

(** Lexicographic comparison of the clock fields. *)
Definition lex (c : comparison) (k : comparison) : comparison :=
  match c with
  | Eq => k
  | _ => c
  end.

Definition fields_compare (a b : datetime) : comparison :=
  lex (year a ?= year b)
  (lex (month a ?= month b)
  (lex (day a ?= day b)
  (lex (hour a ?= hour b)
  (lex (minute a ?= minute b)
  (lex (second a ?= second b)
       (microsecond a ?= microsecond b)))))).

(** Two date-times can be ordered when both are naive or both are aware. *)
Definition comparable (a b : datetime) : bool :=
  Bool.eqb (is_aware a) (is_aware b).

(** The three-way comparison behind [<], [<=], [>], [>=] on comparable
    date-times: with equal offsets (or none) the clock fields are
    compared, otherwise the instants in UTC. *)
Definition dt_compare (a b : datetime) : comparison :=
  if utcoffset a =? utcoffset b then fields_compare a b
  else utc_micros a ?= utc_micros b.

(** Ordering a naive date-time against an aware one raises [TypeError],
    and so does ordering against [None]. *)
Definition dt_cmp (a : datetime) (b : option datetime) : result comparison :=
  match b with
  | None => Raise TypeError
  | Some b' =>
      if comparable a b' then Ok (dt_compare a b') else Raise TypeError
  end.

Definition is_lt (c : comparison) : bool :=
  match c with Lt => true | _ => false end.
Definition is_gt (c : comparison) : bool :=
  match c with Gt => true | _ => false end.
Definition is_le (c : comparison) : bool := negb (is_gt c).
Definition is_ge (c : comparison) : bool := negb (is_lt c).

Definition py_lt (a : datetime) (b : option datetime) : result bool :=
  c ← dt_cmp a b; Ok (is_lt c).
Definition py_le (a : datetime) (b : option datetime) : result bool :=
  c ← dt_cmp a b; Ok (is_le c).
Definition py_gt (a : datetime) (b : option datetime) : result bool :=
  c ← dt_cmp a b; Ok (is_gt c).
Definition py_ge (a : datetime) (b : option datetime) : result bool :=
  c ← dt_cmp a b; Ok (is_ge c).

(** [x and y], [x or y]: the right operand is evaluated only when the left
    one does not decide. *)
Definition py_and (x y : result bool) : result bool :=
  x ≫= λ b : bool, if b then y else Ok false.
Definition py_or (x y : result bool) : result bool :=
  x ≫= λ b : bool, if b then Ok true else y.

(* ================================================================== *)
(** * Temporal resolver and day/night classifier *)
(* ================================================================== *)

(** The value of the [tzsource] argument: [None], a string, a date-time,
    or a value of any other type. *)
Inductive hint : Type :=
  | TzNone
  | TzStr (name : string)
  | TzDatetime (d : datetime)
  | TzOther.

(** The [timezone] entry of a day-cycle dictionary as a [tzsource]
    argument. *)
Definition hint_of_json (v : json) : hint :=
  match v with
  | JNull => TzNone
  | JStr s => TzStr s
  | _ => TzOther
  end.

(** A zone of the pytz database, by its rule: the tzinfo in effect at a
    wall-clock time. *)
Definition zone : Type := datetime -> tzinfo.

(** [tz.localize(d)]: attaches to a naive [d] the tzinfo the zone's rule
    puts in effect at [d]; the clock fields are kept.  An aware [d] is
    refused. *)
Definition localize (tz : zone) (d : datetime) : result datetime :=
  match dt_tzinfo d with
  | Some _ => Raise ValueError
  | None => Ok (replace_tzinfo d (Some (tz d)))
  end.

(** [x.tzinfo] where [x] may be [None]. *)
Definition tzinfo_attr (x : option datetime) : result (option tzinfo) :=
  match x with
  | Some d => Ok (dt_tzinfo d)
  | None => Raise AttributeError
  end.

Section Temporal.

(** [dateutil.parser.parse]: [None] stands for any exception it raises. *)
Variable parse : string -> option datetime.

(** [pytz.timezone]: [None] stands for [UnknownTimeZoneError]. *)
Variable pytz_timezone : string -> option zone.

Definition timezone (name : string) : result zone :=
  match pytz_timezone name with
  | Some tz => Ok tz
  | None => Raise UnknownTimeZoneError
  end.

(** [str_to_time(timestamp, tzsource=None)]. *)
Definition str_to_time (timestamp : string) (tzsource : hint)
  : result (option datetime) :=
  match parse timestamp with
  | None => Ok None                          (* except: return None *)
  | Some d =>
      if is_aware d then Ok (Some d)         (* d.tzinfo != None *)
      else                                   (* d.tzinfo == None *)
        match tzsource with
        | TzNone => Ok (Some d)
        | TzStr name =>
            tz ← timezone name;
            e ← localize tz d;
            Ok (Some e)
        | TzDatetime t =>
            Ok (Some (replace_tzinfo d (dt_tzinfo t)))
        | TzOther => Ok None
        end
  end.

(** The pair of tests [daytime] runs on the time to classify:
    [if t > sunrise and t < sunset: return True] and
    [if t <= sunrise or t >= sunset: return False]; [None] when neither
    returns.  In the bytecode the four comparisons are COMPARE_OP 4 ([>]),
    0 ([<]), 1 ([<=]) and 5 ([>=]), each against the time on the left. *)
Definition day_branches (t : datetime) (sunrise sunset : option datetime)
  : result (option bool) :=
  py_and (py_gt t sunrise) (py_lt t sunset) ≫= λ inside : bool,
  if inside then Ok (Some true)
  else
    py_or (py_le t sunrise) (py_ge t sunset) ≫= λ outside : bool,
    if outside then Ok (Some false) else Ok None.

(** [daytime(time, daycycle)].  The function is a sequence of four [if]
    statements: the year gate, the block that reads the entries of the
    date into [sunrise] and [sunset], the tests for an aware [time], and
    the tests for a naive one; it ends without a [return], that is with
    [None]. *)
Definition daytime (time : datetime) (daycycle : json) : result (option bool) :=
  let year := strftime time "%Y" in
  in_keys year daycycle ≫= λ present : bool,
  if negb present then Ok None               (* year not in daycycle.keys() *)
  else
    (if present then                         (* year in daycycle.keys() *)
       let mm_dd := strftime time "%m-%d" in
       by_year ← getitem daycycle year;
       by_day ← getitem by_year mm_dd;
       sr_time ← getitem by_day "sunrise";
       sr_tstamp ← str_add (strftime time "%Y-%m-%d" +:+ "T") sr_time;
       ss_time ← getitem by_day "sunset";
       ss_tstamp ← str_add (strftime time "%Y-%m-%d" +:+ "T") ss_time;
       tzsource ← getitem daycycle "timezone";
       sunrise ← str_to_time sr_tstamp (hint_of_json tzsource);
       sunset ← str_to_time ss_tstamp (hint_of_json tzsource);
       Ok (sunrise, sunset)
     else Raise UnboundLocalError)           (* sunrise is not assigned *)
    ≫= λ '(sunrise, sunset),
    (if is_aware time                        (* time.tzinfo != None *)
     then day_branches time sunrise sunset
     else Ok None) ≫= λ r : option bool,
    match r with
    | Some b => Ok (Some b)
    | None =>
        if is_aware time then Ok None
        else                                 (* time.tzinfo == None *)
          tzi ← tzinfo_attr sunrise;
          day_branches (replace_tzinfo time tzi) sunrise sunset
    end.

(** The day-cycle dictionary holds, under the year and the month-day of
    [time], a sunrise and a sunset time of day, and names a zone; the two
    times of day, put on the date of [time], resolve to [sunrise] and
    [sunset]. *)
Definition resolves (time : datetime) (daycycle : json)
    (sunrise sunset : datetime) : Prop :=
  ∃ (m by_year by_day : gmap string json) (sr ss zone_name : string),
    daycycle = JDict m
    ∧ m !! strftime time "%Y" = Some (JDict by_year)
    ∧ by_year !! strftime time "%m-%d" = Some (JDict by_day)
    ∧ by_day !! "sunrise" = Some (JStr sr)
    ∧ by_day !! "sunset" = Some (JStr ss)
    ∧ m !! "timezone" = Some (JStr zone_name)
    ∧ str_to_time ((strftime time "%Y-%m-%d" +:+ "T") +:+ sr) (TzStr zone_name)
      = Ok (Some sunrise)
    ∧ str_to_time ((strftime time "%Y-%m-%d" +:+ "T") +:+ ss) (TzStr zone_name)
      = Ok (Some sunset).

End Temporal.

(** The time [daytime] compares with sunrise and sunset: [time] itself
    when it is aware, and otherwise its clock fields with the tzinfo of
    the sunrise. *)
Definition as_compared (time sunrise : datetime) : datetime :=
  if is_aware time then time
  else replace_tzinfo time (dt_tzinfo sunrise).

(** Strictly earlier, and the same instant, in the ordering of
    date-times. *)
Definition earlier (a b : datetime) : Prop := dt_compare a b = Lt.
Definition same_instant (a b : datetime) : Prop := dt_compare a b = Eq.

(** The classification rule as the specification words it: daytime when
    [sunrise <= t < sunset], sunrise included. *)
Definition inclusive_rule (t sunrise sunset : datetime) : bool :=
  is_ge (dt_compare t sunrise) && is_lt (dt_compare t sunset).

(** ** A parser and a zone table to run the functions on *)

(** The part of [dateutil.parser.parse] the examples need: the forms
    [YYYY-MM-DDTHH:MM] and [YYYY-MM-DDTHH:MM:SS], each optionally followed
    by an offset [+HH:MM] or [-HH:MM].  Any other text is rejected. *)
Definition digit_val (c : ascii) : option Z :=
  let n := Z.of_nat (nat_of_ascii c) in
  if (48 <=? n) && (n <=? 57) then Some (n - 48) else None.

Definition two_digits (a b : ascii) : option Z :=
  x ← digit_val a; y ← digit_val b; Some (10 * x + y).

Definition four_digits (a b c d : ascii) : option Z :=
  x ← two_digits a b; y ← two_digits c d; Some (100 * x + y).

Definition parse_offset (s : string) : option (option tzinfo) :=
  match s with
  | EmptyString => Some None
  | String sg (String h1 (String h2 (String c (String m1 (String m2 EmptyString))))) =>
      h ← two_digits h1 h2;
      m ← two_digits m1 m2;
      if negb (Ascii.eqb c ":") then None
      else if Ascii.eqb sg "+" then Some (Some (mk_tzinfo "" ((h * 60 + m) * 60)))
      else if Ascii.eqb sg "-" then Some (Some (mk_tzinfo "" (- ((h * 60 + m) * 60))))
      else None
  | _ => None
  end.

Definition parse_seconds (s : string) : option (Z * string) :=
  match s with
  | String c (String s1 (String s2 rest)) =>
      if Ascii.eqb c ":" then sec ← two_digits s1 s2; Some (sec, rest)
      else Some (0, s)
  | _ => Some (0, s)
  end.

Definition iso_parse (s : string) : option datetime :=
  match s with
  | String y1 (String y2 (String y3 (String y4 (String c1
    (String m1 (String m2 (String c2
    (String d1 (String d2 (String c3
    (String h1 (String h2 (String c4
    (String n1 (String n2 rest))))))))))))))) =>
      y ← four_digits y1 y2 y3 y4;
      m ← two_digits m1 m2;
      d ← two_digits d1 d2;
      h ← two_digits h1 h2;
      n ← two_digits n1 n2;
      '(sec, rest') ← parse_seconds rest;
      tz ← parse_offset rest';
      if Ascii.eqb c1 "-" && Ascii.eqb c2 "-" && Ascii.eqb c3 "T"
         && Ascii.eqb c4 ":"
         && (1 <=? y) && (1 <=? m) && (m <=? 12)
         && (1 <=? d) && (d <=? days_in_month y m)
         && (h <? 24) && (n <? 60) && (sec <? 60)
      then Some (mk_datetime y m d h n sec 0 tz)
      else None
  | _ => None
  end.

(** The rule of the United States zones since 2007: daylight time from
    the second Sunday of March to the first Sunday of November, switching
    at 02:00; a wall-clock time that the switch skips or repeats is read
    as standard time. *)
Definition weekday (y m d : Z) : Z := (ymd2ord y m d + 6) mod 7.

Definition first_sunday (y m : Z) : Z := 1 + (6 - weekday y m 1) mod 7.

Definition us_dst (d : datetime) : bool :=
  let y := year d in
  let start := (ymd2ord y 3 (first_sunday y 3 + 7) * 24 + 3) * 3600 in
  let stop := (ymd2ord y 11 (first_sunday y 11) * 24 + 1) * 3600 in
  (start <=? wall_seconds d) && (wall_seconds d <? stop).

Definition us_zone (std dst : string) (std_hours : Z) : zone := fun d =>
  if us_dst d then mk_tzinfo dst ((std_hours + 1) * 3600)
  else mk_tzinfo std (std_hours * 3600).

Definition us_zones (name : string) : option zone :=
  if String.eqb name "America/New_York" then Some (us_zone "EST" "EDT" (-5))
  else if String.eqb name "America/Chicago" then Some (us_zone "CST" "CDT" (-6))
  else None.

(** The day-cycle dictionary of the specification's example. *)
Definition cycle_2015 : json :=
  JDict (<["2015" := JDict (<["06-05" :=
            JDict (<["sunrise" := JStr "07:00"]>
                  (<["sunset" := JStr "17:00"]> ∅))]> ∅)]>
        (<["timezone" := JStr "America/New_York"]> ∅)).

Definition at_2015_06_05 (h m s : Z) (tz : option tzinfo) : datetime :=
  mk_datetime 2015 6 5 h m s 0 tz.

(** The offset from UTC of a resolved timestamp. *)
Definition resolved_offset (r : result (option datetime)) : option Z :=
  match r with
  | Ok (Some d) => Some (utcoffset d)
  | _ => None
  end.

Definition EDT : tzinfo := mk_tzinfo "EDT" (-14400).
Definition CDT : tzinfo := mk_tzinfo "CDT" (-18000).

(** Sunrise and sunset of 5 June 2015 as that dictionary gives them. *)
Definition sunrise_2015_06_05 : datetime := at_2015_06_05 7 0 0 (Some EDT).
Definition sunset_2015_06_05 : datetime := at_2015_06_05 17 0 0 (Some EDT).

(* ================================================================== *)
(** * Delimited text: the csv dialect *)
(* ================================================================== *)

(** The module uses [csv.writer] and [csv.reader] with their default
    (excel) dialect: delimiter [,], quote character, doubled quotes, line
    terminator CR LF, minimal quoting, no escape character, not strict.
    Both are library code; the definitions below follow the writer and
    the reader of CPython 3.6 (3.6.5 or later, where a row of one empty
    field is always written quoted) for that dialect. *)

Definition NUL : ascii := "000"%char.
Definition LF : ascii := "010"%char.
Definition CR : ascii := "013"%char.
Definition DQUOTE : ascii := "034"%char.
Definition COMMA : ascii := ","%char.

Fixpoint str_exists (p : ascii -> bool) (s : string) : bool :=
  match s with
  | EmptyString => false
  | String c rest => p c || str_exists p rest
  end.

(** ** Writer *)

(** A character that makes the writer quote its field: the delimiter, the
    quote character, or a character of the line terminator. *)
Definition special (c : ascii) : bool :=
  Ascii.eqb c COMMA || Ascii.eqb c DQUOTE || Ascii.eqb c CR || Ascii.eqb c LF.

(** The characters of a field as written: a quote character is doubled. *)
Fixpoint field_data (s : string) : string :=
  match s with
  | EmptyString => EmptyString
  | String c rest =>
      if Ascii.eqb c DQUOTE then String DQUOTE (String DQUOTE (field_data rest))
      else String c (field_data rest)
  end.

Definition quoted (s : string) : string :=
  String DQUOTE (field_data s +:+ String DQUOTE EmptyString).

Definition format_field (s : string) : string :=
  if str_exists special s then quoted s else s.

Fixpoint join_fields (row : list string) : string :=
  match row with
  | [] => EmptyString
  | [f] => format_field f
  | f :: rest => format_field f +:+ String COMMA (join_fields rest)
  end.

(** The record [writerow] writes.  A row made of one empty field would
    give an empty record, so that field is written quoted. *)
Definition format_row (row : list string) : string :=
  (match join_fields row, row with
   | EmptyString, _ :: _ => quoted EmptyString
   | rec, _ => rec
   end) +:+ String CR (String LF EmptyString).

(** ** Reader *)

Inductive parser_state : Type :=
  | START_RECORD
  | START_FIELD
  | IN_FIELD
  | IN_QUOTED_FIELD
  | QUOTE_IN_QUOTED_FIELD
  | EAT_CRNL.

Record reader : Type := mk_reader {
  state : parser_state;
  fields : list string;      (* the fields of the record read so far *)
  field : string             (* the field being read *)
}.

Definition fresh_reader : reader := mk_reader START_RECORD [] EmptyString.

Definition set_state (r : reader) (st : parser_state) : reader :=
  mk_reader st (fields r) (field r).

Definition parse_save_field (r : reader) : reader :=
  mk_reader (state r) (fields r ++ [field r]) EmptyString.

(** [csv.field_size_limit()]: the longest field the reader takes, 131072
    characters unless a caller sets another limit; the module sets
    none. *)
Definition field_size_limit : Z := 131072.

(** [parse_add_char]: a field that has reached the limit takes no more
    characters. *)
Definition parse_add_char (limit : Z) (r : reader) (c : ascii)
  : result reader :=
  if limit <=? Z.of_nat (String.length (field r)) then Raise CsvError
  else Ok (mk_reader (state r) (fields r) (field r +:+ String c EmptyString)).

Definition is_eol (c : ascii) : bool :=
  Ascii.eqb c LF || Ascii.eqb c CR || Ascii.eqb c NUL.

Definition after_eol (c : ascii) : parser_state :=
  if Ascii.eqb c NUL then START_RECORD else EAT_CRNL.

(** The case [START_FIELD] of the reader. *)
Definition start_field (limit : Z) (r : reader) (c : ascii) : result reader :=
  if is_eol c then Ok (set_state (parse_save_field r) (after_eol c))
  else if Ascii.eqb c DQUOTE then Ok (set_state r IN_QUOTED_FIELD)
  else if Ascii.eqb c COMMA then Ok (parse_save_field r)
  else r' ← parse_add_char limit r c; Ok (set_state r' IN_FIELD).

(** One step of the reader; [NUL] is the end-of-line mark the reader
    feeds itself after each line. *)
Definition parse_process_char (limit : Z) (r : reader) (c : ascii)
  : result reader :=
  match state r with
  | START_RECORD =>
      if Ascii.eqb c NUL then Ok r
      else if Ascii.eqb c LF || Ascii.eqb c CR then Ok (set_state r EAT_CRNL)
      else start_field limit (set_state r START_FIELD) c
  | START_FIELD => start_field limit r c
  | IN_FIELD =>
      if is_eol c then Ok (set_state (parse_save_field r) (after_eol c))
      else if Ascii.eqb c COMMA then Ok (set_state (parse_save_field r) START_FIELD)
      else parse_add_char limit r c
  | IN_QUOTED_FIELD =>
      if Ascii.eqb c NUL then Ok r
      else if Ascii.eqb c DQUOTE then Ok (set_state r QUOTE_IN_QUOTED_FIELD)
      else parse_add_char limit r c
  | QUOTE_IN_QUOTED_FIELD =>
      if Ascii.eqb c DQUOTE then
        r' ← parse_add_char limit r c; Ok (set_state r' IN_QUOTED_FIELD)
      else if Ascii.eqb c COMMA then Ok (set_state (parse_save_field r) START_FIELD)
      else if is_eol c then Ok (set_state (parse_save_field r) (after_eol c))
      else r' ← parse_add_char limit r c; Ok (set_state r' IN_FIELD)
  | EAT_CRNL =>
      if Ascii.eqb c LF || Ascii.eqb c CR then Ok r
      else if Ascii.eqb c NUL then Ok (set_state r START_RECORD)
      else Raise CsvError
  end.

(** The characters of one line: a [NUL] in the text is an error. *)
Fixpoint feed_line (limit : Z) (r : reader) (line : string) : result reader :=
  match line with
  | EmptyString => Ok r
  | String c rest =>
      if Ascii.eqb c NUL then Raise CsvError
      else r' ← parse_process_char limit r c; feed_line limit r' rest
  end.

(** What the reader yields when its input has no more lines. *)
Definition at_eof (r : reader) : list (list string) :=
  match field r, state r with
  | EmptyString, IN_QUOTED_FIELD => [fields (parse_save_field r)]
  | EmptyString, _ => []
  | _, _ => [fields (parse_save_field r)]
  end.

(** All the rows the reader yields over the lines of its input: a record
    ends on the line after which the reader is back in [START_RECORD]. *)
Fixpoint read_rows (limit : Z) (r : reader) (lines : list string)
  : result (list (list string)) :=
  match lines with
  | [] => Ok (at_eof r)
  | line :: rest =>
      r1 ← feed_line limit r line;
      r2 ← parse_process_char limit r1 NUL;
      match state r2 with
      | START_RECORD =>
          rows ← read_rows limit fresh_reader rest; Ok (fields r2 :: rows)
      | _ => read_rows limit r2 rest
      end
  end.

(** ** The reader over a whole text *)

(** The same reading told character by character over the text of a
    file, for the proofs: after each LF the reader is fed its end-of-line
    mark and a complete record is yielded.  [mid] tells whether the
    current line has a character already. *)
Fixpoint stream (limit : Z) (r : reader) (mid : bool) (s : string)
  : result (list (list string)) :=
  match s with
  | EmptyString =>
      if mid then
        r2 ← parse_process_char limit r NUL;
        match state r2 with
        | START_RECORD => Ok [fields r2]
        | _ => Ok (at_eof r2)
        end
      else Ok (at_eof r)
  | String c rest =>
      if Ascii.eqb c NUL then Raise CsvError
      else
        r1 ← parse_process_char limit r c;
        if Ascii.eqb c LF then
          r2 ← parse_process_char limit r1 NUL;
          match state r2 with
          | START_RECORD =>
              rows ← stream limit fresh_reader false rest;
              Ok (fields r2 :: rows)
          | _ => stream limit r2 false rest
          end
        else stream limit r1 true rest
  end.

(** What follows a field that ends on the character [d]: after a
    delimiter the next field of the record, after LF the next record. *)
Definition after_field (limit : Z) (fs : list string) (d : ascii)
    (t : string) : result (list (list string)) :=
  if Ascii.eqb d COMMA
  then stream limit (mk_reader START_FIELD fs EmptyString) true t
  else rows ← stream limit fresh_reader false t; Ok (fs :: rows).

(** Whether a string is empty; whether a character is a carriage
    return. *)
Definition is_empty (s : string) : bool :=
  match s with
  | EmptyString => true
  | _ => false
  end.

Definition is_cr (c : ascii) : bool := Ascii.eqb c CR.

(** The first character of a string, if any, ends no line. *)
Definition starts_plain (s : string) : Prop :=
  match s with
  | EmptyString => True
  | String c _ =>
      Ascii.eqb c NUL = false ∧ Ascii.eqb c LF = false ∧ Ascii.eqb c CR = false
  end.

(** A cell the round trip keeps: no carriage return and no NUL in it. *)
Definition clean_char (c : ascii) : bool :=
  negb (Ascii.eqb c CR) && negb (Ascii.eqb c NUL).

Fixpoint clean_cell (s : string) : bool :=
  match s with
  | EmptyString => true
  | String c rest => clean_char c && clean_cell rest
  end.

Definition clean_table (data : list (list string)) : Prop :=
  Forall (Forall (fun cell => clean_cell cell = true)) data.

(** A cell the reader's limit lets through, and a table of such cells. *)
Definition fits (limit : Z) (cell : string) : bool :=
  Z.of_nat (String.length cell) <=? limit.

Definition within_limit (limit : Z) (data : list (list string)) : Prop :=
  Forall (Forall (fun cell => fits limit cell = true)) data.

(** The length of the longest cell of a table. *)
Definition longest_cell (data : list (list string)) : Z :=
  foldr (fun row m =>
           foldr (fun cell m' => Z.max (Z.of_nat (String.length cell)) m')
             m row)
    0 data.

(** The record of a row as it is read back from a text file: the line
    terminator has become LF. *)
Definition record_body (row : list string) : string :=
  match join_fields row, row with
  | EmptyString, _ :: _ => quoted EmptyString
  | rec, _ => rec
  end.

Definition lf_text (data : list (list string)) : string :=
  foldr (fun row text => record_body row +:+ String LF text) EmptyString data.

(* ================================================================== *)
(** * Text files *)
(* ================================================================== *)

(** ** Newlines of a text file opened without a [newline] argument *)

(** Reading: CR LF and a lone CR both come out as LF. *)
Fixpoint universal_newlines (s : string) : string :=
  match s with
  | EmptyString => EmptyString
  | String c rest =>
      if Ascii.eqb c CR then
        String LF
          (match rest with
           | String c' rest' =>
               if Ascii.eqb c' LF then universal_newlines rest'
               else universal_newlines rest
           | EmptyString => EmptyString
           end)
      else String c (universal_newlines rest)
  end.

(** Writing: LF goes out as the line separator of the system, which is
    LF itself on a POSIX system. *)
Definition os_linesep : string := String LF EmptyString.

Fixpoint write_newlines (s : string) : string :=
  match s with
  | EmptyString => EmptyString
  | String c rest =>
      if Ascii.eqb c LF then os_linesep +:+ write_newlines rest
      else String c (write_newlines rest)
  end.

(** The lines a text file yields, each with its LF; the last line may
    lack one.  [cur] is the line read so far. *)
Fixpoint splitlines_from (cur : string) (s : string) : list string :=
  match s with
  | EmptyString =>
      match cur with
      | EmptyString => []
      | _ => [cur]
      end
  | String c rest =>
      if Ascii.eqb c LF
      then (cur +:+ String c EmptyString) :: splitlines_from EmptyString rest
      else splitlines_from (cur +:+ String c EmptyString) rest
  end.

Definition splitlines (s : string) : list string :=
  splitlines_from EmptyString s.

(** ** Files and handles *)

(** The state the file functions act on: the text of each file, the
    handles that are open, the next handle to hand out, and the names
    that cannot be opened for writing (the empty name, a name in a
    directory that does not exist, a directory, a file the process may
    not write), each with the error [open] raises for it.  A file is
    known by the name it is opened under. *)
Record world : Type := mk_world {
  files : gmap string string;
  opened : gset nat;
  next_handle : nat;
  unwritable : gmap string exn
}.

(** A file object: its handle and the name it was opened under. *)
Record file : Type := mk_file {
  handle : nat;
  path : string
}.

(** A call acting on the world returns or raises, and leaves a world
    behind in both cases. *)
Definition io (A : Type) : Type := world -> result A * world.

#[global] Instance io_ret : MRet io := fun A a w => (Ok a, w).

#[global] Instance io_bind : MBind io := fun A B k m w =>
  match m w with
  | (Ok a, w') => k a w'
  | (Raise e, w') => (Raise e, w')
  end.

(** A computation that touches no file. *)
Definition lift {A : Type} (r : result A) : io A := fun w => (r, w).

Definition add_handle (w : world) (fs : gmap string string) : world :=
  mk_world fs ({[ next_handle w ]} ∪ opened w) (S (next_handle w))
    (unwritable w).

(** [open(filename)]: the file must exist. *)
Definition open_read (filename : string) : io file := fun w =>
  match files w !! filename with
  | Some _ => (Ok (mk_file (next_handle w) filename), add_handle w (files w))
  | None => (Raise FileNotFoundError, w)
  end.

(** [open(filename, 'w')]: the file is created or emptied, unless the
    name cannot be opened for writing; then nothing is opened and no file
    is touched. *)
Definition open_write (filename : string) : io file := fun w =>
  match unwritable w !! filename with
  | Some e => (Raise e, w)
  | None =>
      (Ok (mk_file (next_handle w) filename),
       add_handle w (<[filename := EmptyString]> (files w)))
  end.

(** [file.close()]. *)
Definition close (f : file) : io unit := fun w =>
  (Ok tt, mk_world (files w) (opened w ∖ {[ handle f ]}) (next_handle w)
            (unwritable w)).

(** [file.read()]: the whole text, newlines translated. *)
Definition file_read (f : file) : io string := fun w =>
  if bool_decide (handle f ∈ opened w) then
    match files w !! path f with
    | Some text => (Ok (universal_newlines text), w)
    | None => (Raise FileNotFoundError, w)
    end
  else (Raise ValueError, w).

(** The lines iterating over the file yields. *)
Definition file_lines (f : file) : io (list string) :=
  text ← file_read f; mret (splitlines text).

(** [file.write(s)]. *)
Definition file_write (f : file) (s : string) : io unit := fun w =>
  if bool_decide (handle f ∈ opened w) then
    match files w !! path f with
    | Some text =>
        (Ok tt, mk_world (<[path f := text +:+ write_newlines s]> (files w))
                         (opened w) (next_handle w) (unwritable w))
    | None => (Raise FileNotFoundError, w)
    end
  else (Raise ValueError, w).

(* ================================================================== *)
(** * The tabular and structured codecs *)
(* ================================================================== *)

(** [read_csv(filename)]: the loop [for row in wrapper: result.append(row)]
    pulls the lines of the file through the reader; an error of the reader
    leaves the loop, and the function, at once. *)
Definition read_csv (filename : string) : io (list (list string)) :=
  file ← open_read filename;
  lines ← file_lines file;
  result ← lift (read_rows field_size_limit fresh_reader lines);
  _ ← close file;
  mret result.

(** [wrapper.writerow(row)]. *)
Definition writerow (f : file) (row : list string) : io unit :=
  file_write f (format_row row).

(** [for x in range(len(data)): wrapper.writerow(data[x])], at index [x]
    with [n] iterations left. *)
Fixpoint write_loop (f : file) (data : list (list string)) (x n : nat)
  : io unit :=
  match n with
  | O => mret tt
  | S n' =>
      match data !! x with
      | Some row => _ ← writerow f row; write_loop f data (S x) n'
      | None => lift (Raise IndexError)
      end
  end.

(** [write_csv(data, filename)]. *)
Definition write_csv (data : list (list string)) (filename : string)
  : io unit :=
  file ← open_write filename;
  _ ← write_loop file data 0 (length data);
  close file.

Section Structured.

(** [json.loads]: [None] stands for the error it raises on malformed
    text. *)
Variable json_loads : string -> option json.

(** [read_json(filename)]: the file is closed before its text is parsed. *)
Definition read_json (filename : string) : io json :=
  file ← open_read filename;
  text ← file_read file;
  _ ← close file;
  lift (match json_loads text with
        | Some v => Ok v
        | None => Raise JSONDecodeError
        end).

End Structured.

(** A world with no file and no open handle, and runs from it. *)
Definition empty_world : world := mk_world ∅ ∅ 0 ∅.

Definition with_file (name text : string) : world :=
  mk_world (<[name := text]> ∅) ∅ 0 ∅.

(** The text [write_csv] leaves in the file: the records of the rows, in
    order. *)
Definition csv_text (data : list (list string)) : string :=
  foldr (fun row text => format_row row +:+ text) EmptyString data.

(** Every handle of the world was handed out before. *)
Definition wf_world (w : world) : Prop :=
  ∀ h, h ∈ opened w → (h < next_handle w)%nat.

(** Writing a table to a file and reading the file back. *)
Definition write_then_read (data : list (list string)) (filename : string)
  : io (list (list string)) :=
  _ ← write_csv data filename; read_csv filename.

(** A file whose second line holds a NUL character, which the csv reader
    refuses, and a JSON parser that accepts nothing. *)
Definition bad_csv : string :=
  String "a" (String LF (String "b" (String NUL (String LF EmptyString)))).

Definition no_json : string -> option json := fun _ => None.

(** Cells to try the round trip on. *)
Definition two_lines : string :=
  String "a" (String LF (String "b" EmptyString)).
Definition with_return : string :=
  String "a" (String CR (String LF (String "b" EmptyString))).
Definition quote_and_comma : string :=
  String "a" (String DQUOTE (String "," EmptyString)).

(** A cell of [n] copies of one character, and a cell one character
    longer than the reader's limit. *)
Fixpoint repeat_char (c : ascii) (n : nat) : string :=
  match n with
  | O => EmptyString
  | S n' => String c (repeat_char c n')
  end.

Definition long_cell : string :=
  repeat_char "a" (Z.to_nat (field_size_limit + 1)).

(** A world in which the empty name cannot be opened for writing. *)
Definition no_empty_name : world :=
  mk_world ∅ ∅ 0 (<[EmptyString := FileNotFoundError]> ∅).

Definition sample_table : list (list string) :=
  [ ["STUDENT"; "NOTE"]; ["S00309"; two_lines]; ["S00324"; quote_and_comma];
    []; [""]; [""; ""] ]%string.

(** ** Further inputs to run the functions on *)

(** The day New York goes over to daylight time in 2015, with a sunrise
    entry before the switch at 02:00. *)
Definition cycle_switch_day : json :=
  JDict (<["2015" := JDict (<["03-08" :=
            JDict (<["sunrise" := JStr "01:00"]>
                  (<["sunset" := JStr "17:00"]> ∅))]> ∅)]>
        (<["timezone" := JStr "America/New_York"]> ∅)).

(** A dictionary with no [timezone] entry, one whose sunrise is no time
    of day, and one whose sunset comes before its sunrise. *)
Definition cycle_no_zone : json :=
  JDict (<["2015" := JDict (<["06-05" :=
            JDict (<["sunrise" := JStr "07:00"]>
                  (<["sunset" := JStr "17:00"]> ∅))]> ∅)]> ∅).

Definition cycle_dawn : json :=
  JDict (<["2015" := JDict (<["06-05" :=
            JDict (<["sunrise" := JStr "dawn"]>
                  (<["sunset" := JStr "17:00"]> ∅))]> ∅)]>
        (<["timezone" := JStr "America/New_York"]> ∅)).

Definition cycle_inverted : json :=
  JDict (<["2015" := JDict (<["06-05" :=
            JDict (<["sunrise" := JStr "17:00"]>
                  (<["sunset" := JStr "07:00"]> ∅))]> ∅)]>
        (<["timezone" := JStr "America/New_York"]> ∅)).

(** A dictionary whose [timezone] entry is null: its times of day carry
    no zone. *)
Definition cycle_null_zone : json :=
  JDict (<["2015" := JDict (<["06-05" :=
            JDict (<["sunrise" := JStr "07:00"]>
                  (<["sunset" := JStr "17:00"]> ∅))]> ∅)]>
        (<["timezone" := JNull]> ∅)).

(** The records of a table with a lone CR as line terminator, as a
    classic Mac OS tool writes them. *)
Definition cr_text (data : list (list string)) : string :=
  foldr (fun row text => record_body row +:+ String CR text) EmptyString data.

(** The first character of a string, if any, is no line feed. *)
Definition no_lf_first (s : string) : Prop :=
  match s with
  | EmptyString => True
  | String c _ => Ascii.eqb c LF = false
  end.

(** A table of one cell, to write over a longer one. *)
Definition short_table : list (list string) := [ ["x"] ]%string.

(* ================================================================== *)
(** * Properties of the keyed row lookup *)
(* ================================================================== *)

Section LookupFacts.

Import Lookup.

Variable id : string.
Variable t : list (list string).

Lemma cell0_Some x r c :
  t !! x = Some r → r !! 0%nat = Some c → cell0 t x = Ok c.
Proof. intros Ht Hr. unfold cell0. by rewrite Ht, Hr. Qed.

(** The loop walks over rows that do not match. *)
Lemma get_for_id_loop_skip n x r :
  t !! x = Some r → other_id id r →
  get_for_id_loop id t x (S n) = get_for_id_loop id t (S x) n.
Proof.
  intros Ht (c & Hc & Hne). simpl.
  rewrite (cell0_Some x r c Ht Hc). simpl.
  destruct (String.eqb_spec id c) as [->|_]; [done|reflexivity].
Qed.

Lemma get_for_id_loop_hit n x r :
  t !! x = Some r → r !! 0%nat = Some id →
  get_for_id_loop id t x (S n) = Ok (Some r).
Proof.
  intros Ht Hr. simpl. rewrite (cell0_Some x r id Ht Hr). simpl.
  rewrite String.eqb_refl. by rewrite Ht.
Qed.

Lemma get_for_id_loop_found n x i r :
  (x ≤ i < x + n)%nat →
  t !! i = Some r → r !! 0%nat = Some id →
  (∀ j r', (x ≤ j < i)%nat → t !! j = Some r' → other_id id r') →
  get_for_id_loop id t x n = Ok (Some r).
Proof.
  revert x. induction n as [|n IH]; intros x Hi Ht Hr Hbefore; [lia|].
  destruct (decide (x = i)) as [->|Hne].
  - by apply get_for_id_loop_hit.
  - assert (is_Some (t !! x)) as [r' Hx].
    { apply lookup_lt_is_Some. apply lookup_lt_Some in Ht. lia. }
    rewrite (get_for_id_loop_skip n x r' Hx); [|apply (Hbefore x); [lia|done]].
    apply IH; [lia|done|done|].
    intros j r'' Hj. apply Hbefore. lia.
Qed.

Lemma get_for_id_loop_none n x :
  (x + n = length t)%nat →
  (∀ j r', (x ≤ j)%nat → t !! j = Some r' → other_id id r') →
  get_for_id_loop id t x n = Ok None.
Proof.
  revert x. induction n as [|n IH]; intros x Hlen Hall; [reflexivity|].
  assert (is_Some (t !! x)) as [r' Hx] by (apply lookup_lt_is_Some; lia).
  rewrite (get_for_id_loop_skip n x r' Hx); [|by apply (Hall x)].
  apply IH; [lia|]. intros j r'' Hj. apply Hall. lia.
Qed.

End LookupFacts.

(** From index 1 on, the loop does not depend on row 0. *)
Lemma get_for_id_loop_header id r0 r0' rest n x :
  (1 ≤ x)%nat →
  Lookup.get_for_id_loop id (r0' :: rest) x n
  = Lookup.get_for_id_loop id (r0 :: rest) x n.
Proof.
  revert x. induction n as [|n IH]; intros x Hx; [reflexivity|].
  simpl. unfold Lookup.cell0.
  destruct x as [|x]; [lia|]. simpl.
  destruct (rest !! x) as [r|]; [|reflexivity].
  destruct (r !! 0%nat) as [c|]; [|reflexivity]. simpl.
  destruct (String.eqb id c); [reflexivity|]. apply IH. lia.
Qed.

(** The scan as the code runs it, from row 1 on: it returns the first row
    at an index of at least 1 whose first cell equals the identifier (the
    comparison is exact), so of two such rows the earlier one is
    returned; it returns [None], and raises nothing, when no row at an
    index of at least 1 matches; row 0 is never examined, so replacing it
    changes nothing. *)
Theorem get_for_id_first_match_below_header (id : string) (t : list (list string)) :
  (∀ i r, (1 ≤ i)%nat → t !! i = Some r → r !! 0%nat = Some id →
     (∀ j r', (1 ≤ j < i)%nat → t !! j = Some r' → Lookup.other_id id r') →
     Lookup.get_for_id id t = Ok (Some r))
  ∧ ((∀ j r', (1 ≤ j)%nat → t !! j = Some r' → Lookup.other_id id r') →
     Lookup.get_for_id id t = Ok None)
  ∧ (∀ r0 r0' rest, t = r0 :: rest →
       Lookup.get_for_id id (r0' :: rest) = Lookup.get_for_id id t).
Proof.
  unfold Lookup.get_for_id. split; [|split].
  - intros i r Hi Ht Hr Hbefore.
    apply (get_for_id_loop_found id t _ 1 i r); try done.
    apply lookup_lt_Some in Ht. lia.
  - intros Hall. destruct t as [|r0 rest]; [reflexivity|].
    apply get_for_id_loop_none; [simpl; lia|done].
  - intros r0 r0' rest ->. simpl. rewrite !Nat.sub_0_r.
    apply get_for_id_loop_header. lia.
Qed.

(** C4 (the code at the failing input).  The claim is that no row is
    skipped and the first row whose first cell equals the identifier is
    returned; the docstring says the first element of each row is an
    identifier, and the module's test passes a table without its header.
    On such a table, where two rows share the identifier [S00309], the
    first of them is row 0 and [get_for_id] returns the second, the row
    at index 1; and on a table of one row, which matches, it returns
    [None]. *)
Lemma get_for_id_skips_row_0 :
  Lookup.find_by_id_spec "S00309" Lookup.students_body
    = Some ["S00309"; "738GG"]%string
  ∧ Lookup.get_for_id "S00309" Lookup.students_body
    = Ok (Some ["S00309"; "133CZ"]%string)
  ∧ Lookup.get_for_id "S00309" Lookup.students_body
    ≠ Ok (Lookup.find_by_id_spec "S00309" Lookup.students_body)
  ∧ Lookup.find_by_id_spec "S00309" [["S00309"; "738GG"]]%string
    = Some ["S00309"; "738GG"]%string
  ∧ Lookup.get_for_id "S00309" [["S00309"; "738GG"]]%string = Ok None.
Proof.
  split; [vm_compute; reflexivity|]. split; [vm_compute; reflexivity|].
  split; [vm_compute; discriminate|]. split; vm_compute; reflexivity.
Qed.

(** With the header in place the two agree. *)
Example get_for_id_with_header :
  Lookup.get_for_id "S00309" Lookup.students
  = Ok (Lookup.find_by_id_spec "S00309" Lookup.students).
Proof. reflexivity. Qed.

(** A row that is present only at index 0 is not found. *)
Example get_for_id_single_row :
  Lookup.get_for_id "S00309" [["S00309"; "738GG"]]%string = Ok None.
Proof. reflexivity. Qed.

(** A row with no cell at all stops the scan with an error. *)
Example get_for_id_empty_row :
  Lookup.get_for_id "S00309" [["STUDENT"]; []; ["S00309"]]%string
  = Raise IndexError.
Proof. reflexivity. Qed.

(* ================================================================== *)
(** * Properties of the temporal resolver *)
(* ================================================================== *)

Section ResolverFacts.

Variable parse : string -> option datetime.
Variable pytz_timezone : string -> option zone.

(** C2.  When the parsed timestamp carries a time zone of its own,
    [str_to_time] returns it unchanged, whatever the hint is: none, a zone
    name, a date-time or anything else, agreeing with the embedded zone or
    not. *)
Theorem str_to_time_explicit_zone_wins
    (timestamp : string) (tzsource : hint) (d : datetime) :
  parse timestamp = Some d →
  is_aware d = true →
  str_to_time parse pytz_timezone timestamp tzsource = Ok (Some d).
Proof.
  intros Hparse Haware. unfold str_to_time. by rewrite Hparse, Haware.
Qed.

(** C7.  When the parser fails on the text, [str_to_time] returns [None]
    and raises nothing, whatever the hint is. *)
Theorem str_to_time_unparsable_is_none (timestamp : string) (tzsource : hint) :
  parse timestamp = None →
  str_to_time parse pytz_timezone timestamp tzsource = Ok None.
Proof. intros Hparse. unfold str_to_time. by rewrite Hparse. Qed.


(** With no hint a naive timestamp stays naive, and a date-time hint lends
    its tzinfo. *)
Lemma str_to_time_naive_no_hint (timestamp : string) (d : datetime) :
  parse timestamp = Some d → is_aware d = false →
  str_to_time parse pytz_timezone timestamp TzNone = Ok (Some d).
Proof. intros Hparse Hnaive. unfold str_to_time. by rewrite Hparse, Hnaive. Qed.

Lemma str_to_time_naive_datetime_hint (timestamp : string) (d t : datetime) :
  parse timestamp = Some d → is_aware d = false →
  str_to_time parse pytz_timezone timestamp (TzDatetime t)
  = Ok (Some (replace_tzinfo d (dt_tzinfo t))).
Proof. intros Hparse Hnaive. unfold str_to_time. by rewrite Hparse, Hnaive. Qed.

End ResolverFacts.

(** C2 (witness).  The text says five hours west of UTC; the hint names
    New York, which is four hours west on that day. *)
Lemma str_to_time_explicit_zone_wins_witness :
  str_to_time iso_parse us_zones "2015-06-05T07:00:00-05:00"
    (TzStr "America/New_York")
  = Ok (Some (at_2015_06_05 7 0 0 (Some (mk_tzinfo "" (-18000))))).
Proof.
  apply (str_to_time_explicit_zone_wins iso_parse us_zones); reflexivity.
Defined.

(** C7 (witness). *)
Lemma str_to_time_unparsable_is_none_witness :
  str_to_time iso_parse us_zones "next Tuesday-ish" (TzStr "America/New_York")
  = Ok None.
Proof.
  apply (str_to_time_unparsable_is_none iso_parse us_zones); reflexivity.
Defined.


(** The offset follows the season: four hours in June, five in January,
    and the switch falls on the night of 8 March 2015. *)
Example new_york_offsets :
  resolved_offset (str_to_time iso_parse us_zones "2015-06-05T07:00"
                        (TzStr "America/New_York")) = Some (-14400)
  ∧ resolved_offset (str_to_time iso_parse us_zones "2015-01-12T09:00"
                        (TzStr "America/New_York")) = Some (-18000)
  ∧ resolved_offset (str_to_time iso_parse us_zones "2015-03-07T12:00"
                        (TzStr "America/New_York")) = Some (-18000)
  ∧ resolved_offset (str_to_time iso_parse us_zones "2015-03-08T12:00"
                        (TzStr "America/New_York")) = Some (-14400).
Proof. repeat split; vm_compute; reflexivity. Qed.

(* ================================================================== *)
(** * Properties of the ordering of date-times *)
(* ================================================================== *)

Lemma lex_opp c k : CompOpp (lex c k) = lex (CompOpp c) (CompOpp k).
Proof. by destruct c. Qed.

Lemma fields_compare_antisym a b :
  fields_compare b a = CompOpp (fields_compare a b).
Proof.
  unfold fields_compare. rewrite !lex_opp, <- !Z.compare_antisym. reflexivity.
Qed.

Lemma fields_compare_refl a : fields_compare a a = Eq.
Proof. unfold fields_compare. by rewrite !Z.compare_refl. Qed.

Lemma dt_compare_antisym a b : dt_compare b a = CompOpp (dt_compare a b).
Proof.
  unfold dt_compare. rewrite (Z.eqb_sym (utcoffset b)).
  destruct (utcoffset a =? utcoffset b).
  - apply fields_compare_antisym.
  - apply Z.compare_antisym.
Qed.

Lemma dt_compare_refl a : dt_compare a a = Eq.
Proof. unfold dt_compare. rewrite Z.eqb_refl. apply fields_compare_refl. Qed.

Lemma dt_compare_gt_iff a b : dt_compare a b = Gt ↔ earlier b a.
Proof.
  unfold earlier. rewrite (dt_compare_antisym a b).
  destruct (dt_compare a b); simpl; split; congruence.
Qed.

Lemma lex_assoc a b c : lex (lex a b) c = lex a (lex b c).
Proof. by destruct a. Qed.

(** Two digits in a radix compare as the number they write. *)
Lemma lex_radix (R hi lo hi' lo' : Z) :
  0 ≤ lo < R → 0 ≤ lo' < R →
  lex (hi ?= hi') (lo ?= lo') = (hi * R + lo ?= hi' * R + lo').
Proof.
  intros Hlo Hlo'. unfold lex.
  destruct (Z.compare_spec hi hi') as [-> | Hlt | Hgt].
  - destruct (Z.compare_spec lo lo'); symmetry;
      [apply Z.compare_eq_iff | apply Z.compare_lt_iff | apply Z.compare_gt_iff];
      lia.
  - symmetry. apply Z.compare_lt_iff.
    assert ((hi + 1) * R ≤ hi' * R) by (apply Z.mul_le_mono_nonneg_r; lia).
    lia.
  - symmetry. apply Z.compare_gt_iff.
    assert ((hi' + 1) * R ≤ hi * R) by (apply Z.mul_le_mono_nonneg_r; lia).
    lia.
Qed.

Lemma days_before_year_succ (y : Z) :
  days_before_year (y + 1)
  = days_before_year y + 365 + (if is_leap y then 1 else 0).
Proof.
  unfold days_before_year, is_leap.
  replace (y + 1 - 1) with y by lia.
  destruct (Z.eqb_spec (y mod 4) 0), (Z.eqb_spec (y mod 100) 0),
    (Z.eqb_spec (y mod 400) 0); simpl;
    Z.div_mod_to_equations; lia.
Qed.

Lemma days_before_year_mono (y y' : Z) :
  y ≤ y' → days_before_year y ≤ days_before_year y'.
Proof.
  intros Hle. replace y' with (y + (y' - y)) by lia.
  assert (0 ≤ y' - y) as Hn by lia. revert Hn.
  generalize (y' - y). apply natlike_ind; [by rewrite Z.add_0_r|].
  intros n Hn IH. replace (y + Z.succ n) with (y + n + 1) by lia.
  rewrite days_before_year_succ. destruct (is_leap (y + n)); lia.
Qed.

(** The day of the year is at most the length of the year. *)
Lemma day_of_year_bound (y m d : Z) :
  1 ≤ m ≤ 12 → 1 ≤ d ≤ days_in_month y m →
  1 ≤ days_before_month y m + d ≤ 365 + (if is_leap y then 1 else 0).
Proof.
  intros Hm Hd. unfold days_before_month, days_in_month in *.
  assert (m = 1 ∨ m = 2 ∨ m = 3 ∨ m = 4 ∨ m = 5 ∨ m = 6 ∨ m = 7 ∨ m = 8
          ∨ m = 9 ∨ m = 10 ∨ m = 11 ∨ m = 12) as Hcases by lia.
  destruct (is_leap y);
    repeat (destruct Hcases as [-> | Hcases]); try subst m; simpl in *; lia.
Qed.

Lemma day_of_year_lex (y m d m' d' : Z) :
  1 ≤ m ≤ 12 → 1 ≤ d ≤ days_in_month y m →
  1 ≤ m' ≤ 12 → 1 ≤ d' ≤ days_in_month y m' →
  lex (m ?= m') (d ?= d')
  = (days_before_month y m + d ?= days_before_month y m' + d').
Proof.
  intros Hm Hd Hm' Hd'. unfold days_before_month, days_in_month in *.
  assert (m = 1 ∨ m = 2 ∨ m = 3 ∨ m = 4 ∨ m = 5 ∨ m = 6 ∨ m = 7 ∨ m = 8
          ∨ m = 9 ∨ m = 10 ∨ m = 11 ∨ m = 12) as Hcases by lia.
  assert (m' = 1 ∨ m' = 2 ∨ m' = 3 ∨ m' = 4 ∨ m' = 5 ∨ m' = 6 ∨ m' = 7
          ∨ m' = 8 ∨ m' = 9 ∨ m' = 10 ∨ m' = 11 ∨ m' = 12) as Hcases' by lia.
  destruct (is_leap y);
    repeat (destruct Hcases as [-> | Hcases]); try subst m;
    repeat (destruct Hcases' as [-> | Hcases']); try subst m';
    simpl in *;
    first [ reflexivity
          | rewrite Z.add_compare_mono_l; reflexivity
          | symmetry; apply Z.compare_lt_iff; lia
          | symmetry; apply Z.compare_gt_iff; lia ].
Qed.

(** The date fields compare as the ordinal of the date. *)
Lemma ymd2ord_lex (y m d y' m' d' : Z) :
  1 ≤ m ≤ 12 → 1 ≤ d ≤ days_in_month y m →
  1 ≤ m' ≤ 12 → 1 ≤ d' ≤ days_in_month y' m' →
  lex (y ?= y') (lex (m ?= m') (d ?= d'))
  = (ymd2ord y m d ?= ymd2ord y' m' d').
Proof.
  intros Hm Hd Hm' Hd'. unfold ymd2ord.
  pose proof (day_of_year_bound y m d Hm Hd) as Hb.
  pose proof (day_of_year_bound y' m' d' Hm' Hd') as Hb'.
  destruct (Z.compare_spec y y') as [-> | Hlt | Hgt]; simpl.
  - rewrite (day_of_year_lex y' m d m' d') by done.
    rewrite <- !Z.add_assoc. by rewrite Z.add_compare_mono_l.
  - symmetry. apply Z.compare_lt_iff.
    pose proof (days_before_year_succ y) as Hs.
    pose proof (days_before_year_mono (y + 1) y' ltac:(lia)). lia.
  - symmetry. apply Z.compare_gt_iff.
    pose proof (days_before_year_succ y') as Hs.
    pose proof (days_before_year_mono (y' + 1) y ltac:(lia)). lia.
Qed.

(** Two comparisons agree when linear arithmetic says so. *)
Ltac same_comparison :=
  match goal with
  | |- (?x ?= ?y) = _ =>
      destruct (Z.compare_spec x y); symmetry;
      [apply Z.compare_eq_iff | apply Z.compare_lt_iff | apply Z.compare_gt_iff];
      lia
  end.

(** The clock fields of valid date-times compare as the time they
    write. *)
Lemma fields_compare_wall (a b : datetime) :
  valid_datetime a → valid_datetime b →
  fields_compare a b = (wall_micros a ?= wall_micros b).
Proof.
  intros (Hy & Hm & Hd & Hh & Hmi & Hs & Hus) (Hy' & Hm' & Hd' & Hh' & Hmi' & Hs' & Hus').
  unfold fields_compare, wall_micros, wall_seconds.
  rewrite (lex_radix 1000000) by done.
  rewrite (lex_radix 60000000) by lia.
  rewrite (lex_radix 3600000000) by lia.
  rewrite <- !lex_assoc. rewrite (lex_assoc (year a ?= year b)).
  rewrite ymd2ord_lex by done.
  rewrite (lex_radix 86400000000) by lia.
  same_comparison.
Qed.

(** Valid date-times, aware or both naive, are ordered as instants. *)
Lemma dt_compare_utc (a b : datetime) :
  valid_datetime a → valid_datetime b →
  dt_compare a b = (utc_micros a ?= utc_micros b).
Proof.
  intros Ha Hb. unfold dt_compare.
  destruct (Z.eqb_spec (utcoffset a) (utcoffset b)) as [Heq | _]; [|done].
  rewrite (fields_compare_wall a b Ha Hb).
  unfold utc_micros, wall_micros. rewrite Heq. same_comparison.
Qed.

Lemma earlier_utc (a b : datetime) :
  valid_datetime a → valid_datetime b →
  earlier a b ↔ utc_micros a < utc_micros b.
Proof.
  intros Ha Hb. unfold earlier. rewrite (dt_compare_utc a b Ha Hb).
  apply Z.compare_lt_iff.
Qed.

Lemma same_instant_utc (a b : datetime) :
  valid_datetime a → valid_datetime b →
  same_instant a b ↔ utc_micros a = utc_micros b.
Proof.
  intros Ha Hb. unfold same_instant. rewrite (dt_compare_utc a b Ha Hb).
  apply Z.compare_eq_iff.
Qed.

(** The ordering does not look at the name of a zone. *)
Lemma comparable_aware a b :
  is_aware a = true → is_aware b = true → comparable a b = true.
Proof. unfold comparable. by intros -> ->. Qed.

(* ================================================================== *)
(** * Properties of the day/night classifier *)
(* ================================================================== *)

(** Between comparable date-times one of the two tests of [daytime]
    returns: the first when the time is after sunrise and before sunset,
    the second otherwise. *)
Lemma day_branches_comparable t sunrise sunset :
  comparable t sunrise = true → comparable t sunset = true →
  day_branches t (Some sunrise) (Some sunset)
  = Ok (Some (is_gt (dt_compare t sunrise) && is_lt (dt_compare t sunset))).
Proof.
  intros H1 H2.
  unfold day_branches, py_and, py_or, py_gt, py_lt, py_le, py_ge, dt_cmp.
  rewrite H1, H2. simpl.
  by destruct (dt_compare t sunrise), (dt_compare t sunset).
Qed.

Section ClassifierFacts.

Variable parse : string -> option datetime.
Variable pytz_timezone : string -> option zone.

(** What a zone name resolves a timestamp to is aware. *)
Lemma str_to_time_zone_aware timestamp name d :
  str_to_time parse pytz_timezone timestamp (TzStr name) = Ok (Some d) →
  is_aware d = true.
Proof.
  unfold str_to_time, timezone, localize.
  destruct (parse timestamp) as [p|]; [|discriminate].
  destruct (is_aware p) eqn:Hp; [congruence|].
  destruct (pytz_timezone name) as [tz|]; [|discriminate]. simpl.
  unfold is_aware in Hp. destruct (dt_tzinfo p); [discriminate|]. simpl.
  by intros [= <-].
Qed.

Lemma resolves_aware time daycycle sunrise sunset :
  resolves parse pytz_timezone time daycycle sunrise sunset →
  is_aware sunrise = true ∧ is_aware sunset = true.
Proof.
  intros (m & by_year & by_day & sr & ss & zn & _ & _ & _ & _ & _ & _ & H1 & H2).
  split; eapply str_to_time_zone_aware; eassumption.
Qed.

Lemma as_compared_aware time sunrise :
  is_aware sunrise = true → is_aware (as_compared time sunrise) = true.
Proof.
  intros Hs. unfold as_compared. destruct (is_aware time) eqn:Ht; [done|].
  unfold is_aware in *. simpl. done.
Qed.

(** The classifier, once the entries of the date resolve: the time as
    compared is classified by the two tests. *)
Lemma daytime_resolved time daycycle sunrise sunset :
  resolves parse pytz_timezone time daycycle sunrise sunset →
  daytime parse pytz_timezone time daycycle
  = Ok (Some (is_gt (dt_compare (as_compared time sunrise) sunrise)
              && is_lt (dt_compare (as_compared time sunrise) sunset))).
Proof.
  intros Hres. destruct (resolves_aware _ _ _ _ Hres) as [Hsr Hss].
  destruct Hres as (m & by_year & by_day & sr & ss & zn
                    & -> & Hy & Hd & Hsr' & Hss' & Htz & H1 & H2).
  unfold daytime. cbn -[strftime String.append day_branches].
  rewrite Hy. rewrite bool_decide_eq_true_2 by eauto. cbn -[strftime String.append day_branches].
  rewrite Hd. cbn -[strftime String.append day_branches]. rewrite Hsr', Hss'.
  cbn -[strftime String.append day_branches]. rewrite Htz. cbn -[strftime String.append day_branches].
  rewrite H1. cbn -[strftime String.append day_branches]. rewrite H2.
  cbn -[strftime String.append day_branches].
  unfold as_compared. destruct (is_aware time) eqn:Ht.
  - rewrite day_branches_comparable by (by apply comparable_aware). done.
  - simpl. rewrite day_branches_comparable; [done| |].
    + apply comparable_aware; [|done]. unfold is_aware in *. simpl. done.
    + apply comparable_aware; [|done]. unfold is_aware in *. simpl. done.
Qed.

End ClassifierFacts.

Section ClassifierClaims.

Variable parse : string -> option datetime.
Variable pytz_timezone : string -> option zone.

(** C1 (as amended).  For every aware instant whose year and month-day
    entries resolve, [daytime] returns true exactly when the instant is
    strictly after sunrise and strictly before sunset: both bounds are
    exclusive, so an instant exactly at sunrise, like one exactly at
    sunset, classifies as false.  For date-times with fields in range the
    ordering is that of the instants in UTC. *)
Theorem daytime_strictly_between (time : datetime) (daycycle : json)
    (sunrise sunset : datetime) :
  is_aware time = true →
  resolves parse pytz_timezone time daycycle sunrise sunset →
  ∃ b : bool,
    daytime parse pytz_timezone time daycycle = Ok (Some b)
    ∧ (b = true ↔ earlier sunrise time ∧ earlier time sunset)
    ∧ (same_instant time sunrise → b = false)
    ∧ (same_instant time sunset → b = false)
    ∧ (valid_datetime time → valid_datetime sunrise → valid_datetime sunset →
       (b = true ↔ utc_micros sunrise < utc_micros time < utc_micros sunset)).
Proof.
  intros Haware Hres.
  rewrite (daytime_resolved _ _ _ _ _ _ Hres).
  unfold as_compared. rewrite Haware.
  eexists. split; [reflexivity|].
  assert (∀ b : bool,
            (b = true ↔ earlier sunrise time ∧ earlier time sunset) →
            valid_datetime time → valid_datetime sunrise →
            valid_datetime sunset →
            (b = true ↔ utc_micros sunrise < utc_micros time < utc_micros sunset))
    as Hutc.
  { intros b Hb Ht Hsr Hss.
    by rewrite Hb, (earlier_utc _ _ Hsr Ht), (earlier_utc _ _ Ht Hss). }
  assert (is_gt (dt_compare time sunrise) && is_lt (dt_compare time sunset) = true
          ↔ earlier sunrise time ∧ earlier time sunset) as Hiff.
  { rewrite <- dt_compare_gt_iff. unfold earlier.
    destruct (dt_compare time sunrise), (dt_compare time sunset); simpl;
      split; try tauto; try congruence; intros [? ?]; congruence. }
  split; [exact Hiff|]. split; [|split; [|by apply Hutc]].
  - unfold same_instant. intros ->. reflexivity.
  - unfold same_instant. intros ->. apply andb_false_r.
Qed.

(** C10 (as amended).  Once the entries of the date resolve, [daytime]
    returns a boolean and never falls through to [None]: the two tests
    (after sunrise and before sunset, against at or before sunrise or at
    or after sunset) cover every ordering of the time as compared with
    sunrise and sunset. *)
Theorem daytime_returns_boolean (time : datetime) (daycycle : json)
    (sunrise sunset : datetime) :
  resolves parse pytz_timezone time daycycle sunrise sunset →
  let t := as_compared time sunrise in
  ∃ b : bool,
    daytime parse pytz_timezone time daycycle = Ok (Some b)
    ∧ (b = true ↔ earlier sunrise t ∧ earlier t sunset)
    ∧ (b = false ↔ ¬ earlier sunrise t ∨ ¬ earlier t sunset)
    ∧ day_branches t (Some sunrise) (Some sunset) = Ok (Some b).
Proof.
  intros Hres t. subst t.
  destruct (resolves_aware _ _ _ _ _ _ Hres) as [Hsr Hss].
  pose proof (as_compared_aware time sunrise Hsr) as Ht.
  rewrite (daytime_resolved _ _ _ _ _ _ Hres).
  rewrite day_branches_comparable by (by apply comparable_aware).
  eexists. split; [reflexivity|].
  rewrite <- dt_compare_gt_iff. unfold earlier.
  destruct (dt_compare (as_compared time sunrise) sunrise),
           (dt_compare (as_compared time sunrise) sunset); simpl;
    repeat split; try tauto; try congruence;
    try (intros [? ?]; congruence);
    try (intros _; first [left; congruence | right; congruence]);
    try (intros [H|H]; exfalso; apply H; reflexivity).
Qed.

(** The year gate: a year that is no key of the dictionary gives [None]. *)
Lemma daytime_year_absent (time : datetime) (m : gmap string json) :
  m !! strftime time "%Y" = None →
  daytime parse pytz_timezone time (JDict m) = Ok None.
Proof.
  intros Hy. unfold daytime. cbn -[strftime String.append day_branches].
  rewrite Hy. rewrite bool_decide_eq_false_2; [reflexivity|].
  by intros [? ?].
Qed.

(** No such gate for the month-day: a year that is present without the
    month-day of the time makes the subscript raise. *)
Lemma daytime_month_day_absent (time : datetime)
    (m by_year : gmap string json) :
  m !! strftime time "%Y" = Some (JDict by_year) →
  by_year !! strftime time "%m-%d" = None →
  daytime parse pytz_timezone time (JDict m) = Raise KeyError.
Proof.
  intros Hy Hd. unfold daytime. cbn -[strftime String.append day_branches].
  rewrite Hy. rewrite bool_decide_eq_true_2 by eauto.
  cbn -[strftime String.append day_branches]. by rewrite Hd.
Qed.

End ClassifierClaims.

(** ** The example of the specification *)

(** On 5 June 2015 the dictionary resolves to sunrise at 07:00 and sunset
    at 17:00, daylight time, whatever the time of day and the zone of the
    time to classify. *)
Lemma cycle_2015_resolves (h m s : Z) (tz : option tzinfo) :
  resolves iso_parse us_zones (at_2015_06_05 h m s tz) cycle_2015
    sunrise_2015_06_05 sunset_2015_06_05.
Proof.
  unfold resolves, cycle_2015.
  eexists _, _, _, "07:00"%string, "17:00"%string, "America/New_York"%string.
  split; [reflexivity|].
  repeat split; vm_compute; reflexivity.
Qed.

(** C1 (witness).  An instant one second after sunrise. *)
Lemma daytime_strictly_between_witness :
  ∃ b : bool,
    daytime iso_parse us_zones (at_2015_06_05 7 0 1 (Some EDT)) cycle_2015
    = Ok (Some b)
    ∧ (b = true ↔ earlier sunrise_2015_06_05 (at_2015_06_05 7 0 1 (Some EDT))
                  ∧ earlier (at_2015_06_05 7 0 1 (Some EDT)) sunset_2015_06_05)
    ∧ (same_instant (at_2015_06_05 7 0 1 (Some EDT)) sunrise_2015_06_05
       → b = false)
    ∧ (same_instant (at_2015_06_05 7 0 1 (Some EDT)) sunset_2015_06_05
       → b = false)
    ∧ (valid_datetime (at_2015_06_05 7 0 1 (Some EDT)) →
       valid_datetime sunrise_2015_06_05 →
       valid_datetime sunset_2015_06_05 →
       (b = true ↔ utc_micros sunrise_2015_06_05
                    < utc_micros (at_2015_06_05 7 0 1 (Some EDT))
                    < utc_micros sunset_2015_06_05)).
Proof.
  apply (daytime_strictly_between iso_parse us_zones).
  - reflexivity.
  - apply cycle_2015_resolves.
Defined.

(** C1 (counterexample).  An instant exactly at sunrise satisfies
    [sunrise <= instant < sunset], and [daytime] returns false for it. *)
Lemma daytime_excludes_sunrise :
  same_instant (at_2015_06_05 7 0 0 (Some EDT)) sunrise_2015_06_05
  ∧ inclusive_rule (at_2015_06_05 7 0 0 (Some EDT))
      sunrise_2015_06_05 sunset_2015_06_05 = true
  ∧ daytime iso_parse us_zones (at_2015_06_05 7 0 0 (Some EDT)) cycle_2015
    = Ok (Some false).
Proof. repeat split; vm_compute; reflexivity. Qed.

(** The other boundary cases, for instants in the zone of the table: one
    second before sunrise, one second before sunset, exactly at sunset. *)
Example daytime_boundaries :
  daytime iso_parse us_zones (at_2015_06_05 6 59 59 (Some EDT)) cycle_2015
  = Ok (Some false)
  ∧ daytime iso_parse us_zones (at_2015_06_05 7 0 1 (Some EDT)) cycle_2015
    = Ok (Some true)
  ∧ daytime iso_parse us_zones (at_2015_06_05 16 59 59 (Some EDT)) cycle_2015
    = Ok (Some true)
  ∧ daytime iso_parse us_zones (at_2015_06_05 17 0 0 (Some EDT)) cycle_2015
    = Ok (Some false).
Proof. repeat split; vm_compute; reflexivity. Qed.

(** An instant of another zone is compared as an instant: 06:00:01 in
    Chicago is 07:00:01 in New York. *)
Example daytime_across_zones :
  daytime iso_parse us_zones (at_2015_06_05 6 0 1 (Some CDT)) cycle_2015
  = Ok (Some true)
  ∧ daytime iso_parse us_zones (at_2015_06_05 15 59 59 (Some CDT)) cycle_2015
    = Ok (Some true)
  ∧ daytime iso_parse us_zones (at_2015_06_05 16 0 0 (Some CDT)) cycle_2015
    = Ok (Some false).
Proof. repeat split; vm_compute; reflexivity. Qed.

(** C10 (witness).  A naive noon. *)
Lemma daytime_returns_boolean_witness :
  let t := as_compared (at_2015_06_05 12 0 0 None) sunrise_2015_06_05 in
  ∃ b : bool,
    daytime iso_parse us_zones (at_2015_06_05 12 0 0 None) cycle_2015
    = Ok (Some b)
    ∧ (b = true ↔ earlier sunrise_2015_06_05 t ∧ earlier t sunset_2015_06_05)
    ∧ (b = false ↔ ¬ earlier sunrise_2015_06_05 t ∨ ¬ earlier t sunset_2015_06_05)
    ∧ day_branches t (Some sunrise_2015_06_05) (Some sunset_2015_06_05)
      = Ok (Some b).
Proof.
  apply (daytime_returns_boolean iso_parse us_zones).
  apply cycle_2015_resolves.
Defined.

(** C10 (counterexample).  06:00 in Chicago is the instant of the sunrise:
    it is at or after sunrise and before sunset, yet it is the second test
    that returns, with false. *)
Lemma daytime_sunrise_in_second_branch :
  inclusive_rule (at_2015_06_05 6 0 0 (Some CDT))
    sunrise_2015_06_05 sunset_2015_06_05 = true
  ∧ py_and (py_gt (at_2015_06_05 6 0 0 (Some CDT)) (Some sunrise_2015_06_05))
           (py_lt (at_2015_06_05 6 0 0 (Some CDT)) (Some sunset_2015_06_05))
    = Ok false
  ∧ py_or (py_le (at_2015_06_05 6 0 0 (Some CDT)) (Some sunrise_2015_06_05))
          (py_ge (at_2015_06_05 6 0 0 (Some CDT)) (Some sunset_2015_06_05))
    = Ok true
  ∧ daytime iso_parse us_zones (at_2015_06_05 6 0 0 (Some CDT)) cycle_2015
    = Ok (Some false).
Proof. repeat split; vm_compute; reflexivity. Qed.

(** The keys [daytime] looks up are made of the date fields alone. *)
Lemma strftime_year_of_date (a b : datetime) :
  year a = year b → strftime a "%Y" = strftime b "%Y".
Proof. intros H. cbn. by rewrite H. Qed.

Lemma strftime_month_day_of_date (a b : datetime) :
  month a = month b → day a = day b →
  strftime a "%m-%d" = strftime b "%m-%d".
Proof. intros Hm Hd. cbn. by rewrite Hm, Hd. Qed.

Lemma strftime_date_of_date (a b : datetime) :
  year a = year b → month a = month b → day a = day b →
  strftime a "%Y-%m-%d" = strftime b "%Y-%m-%d".
Proof. intros Hy Hm Hd. cbn. by rewrite Hy, Hm, Hd. Qed.

(** The entries of a date resolve alike for every time of that date. *)
Lemma resolves_same_date (parse : string -> option datetime)
    (pytz_timezone : string -> option zone) (a b : datetime)
    (daycycle : json) (sunrise sunset : datetime) :
  year a = year b → month a = month b → day a = day b →
  resolves parse pytz_timezone a daycycle sunrise sunset →
  resolves parse pytz_timezone b daycycle sunrise sunset.
Proof.
  intros Hy Hm Hd. unfold resolves.
  by rewrite (strftime_year_of_date a b Hy),
    (strftime_month_day_of_date a b Hm Hd),
    (strftime_date_of_date a b Hy Hm Hd).
Qed.

(** The ordering looks at a date-time through its clock fields and its
    offset only. *)
Lemma dt_compare_same_offset (a a' x : datetime) :
  naive a = naive a' → utcoffset a = utcoffset a' →
  dt_compare a x = dt_compare a' x.
Proof.
  destruct a as [y mo d h mi sec us tz], a' as [y' mo' d' h' mi' sec' us' tz'].
  unfold naive, replace_tzinfo. simpl.
  intros [= <- <- <- <- <- <- <-] Hoff.
  unfold dt_compare, utc_micros, wall_seconds. simpl.
  by rewrite Hoff.
Qed.

(** C6 (as amended).  A time with no zone of its own, at which the
    table's zone is at the offset from UTC it has at the sunrise of the
    date, is read as a time of the table's zone: its clock fields are
    kept, the answer is that of the same clock time localized in that
    zone, and it is true exactly when that instant is strictly after
    sunrise and strictly before sunset.  With the table of the example
    the naive times 07:00:00, 17:00:00 and 06:59:59 of 5 June 2015 all
    classify as false. *)
Theorem daytime_naive_in_table_zone :
  (∀ parse pytz_timezone time m zone_name tz sunrise sunset,
     is_aware time = false →
     resolves parse pytz_timezone time (JDict m) sunrise sunset →
     m !! "timezone" = Some (JStr zone_name) →
     pytz_timezone zone_name = Some tz →
     tz_utcoffset (tz time) = utcoffset sunrise →
     ∃ (t : datetime) (b : bool),
       localize tz time = Ok t
       ∧ naive t = naive time
       ∧ daytime parse pytz_timezone time (JDict m) = Ok (Some b)
       ∧ daytime parse pytz_timezone t (JDict m) = Ok (Some b)
       ∧ (b = true ↔ earlier sunrise t ∧ earlier t sunset))
  ∧ daytime iso_parse us_zones (at_2015_06_05 7 0 0 None) cycle_2015
    = Ok (Some false)
  ∧ daytime iso_parse us_zones (at_2015_06_05 17 0 0 None) cycle_2015
    = Ok (Some false)
  ∧ daytime iso_parse us_zones (at_2015_06_05 6 59 59 None) cycle_2015
    = Ok (Some false).
Proof.
  split; [|repeat split; vm_compute; reflexivity].
  intros parse pytz_timezone time m zone_name tz sunrise sunset
    Hnaive Hres Hzone Htz Hoff.
  pose (t := replace_tzinfo time (Some (tz time))).
  assert (resolves parse pytz_timezone t (JDict m) sunrise sunset) as Hres'
    by (by apply (resolves_same_date _ _ time t)).
  assert (∀ x, dt_compare (as_compared time sunrise) x = dt_compare t x)
    as Hsame.
  { intros x. unfold as_compared. rewrite Hnaive.
    apply dt_compare_same_offset; [reflexivity|].
    unfold utcoffset at 1. simpl dt_tzinfo. fold (utcoffset sunrise).
    by rewrite <- Hoff. }
  exists t. eexists. split; [|split; [reflexivity|split; [|split]]].
  - unfold localize. unfold is_aware in Hnaive.
    by destruct (dt_tzinfo time).
  - rewrite (daytime_resolved _ _ _ _ _ _ Hres). by rewrite !Hsame.
  - rewrite (daytime_resolved _ _ _ _ _ _ Hres'). reflexivity.
  - rewrite <- dt_compare_gt_iff. unfold earlier.
    destruct (dt_compare t sunrise), (dt_compare t sunset); simpl;
      split; try tauto; try congruence; intros [? ?]; congruence.
Qed.

(** C6 (witness).  The general part at a naive noon. *)
Lemma daytime_naive_in_table_zone_witness :
  ∃ (t : datetime) (b : bool),
    localize (us_zone "EST" "EDT" (-5)) (at_2015_06_05 12 0 0 None) = Ok t
    ∧ naive t = naive (at_2015_06_05 12 0 0 None)
    ∧ daytime iso_parse us_zones (at_2015_06_05 12 0 0 None) cycle_2015
      = Ok (Some b)
    ∧ daytime iso_parse us_zones t cycle_2015 = Ok (Some b)
    ∧ (b = true ↔ earlier sunrise_2015_06_05 t ∧ earlier t sunset_2015_06_05).
Proof.
  unfold cycle_2015.
  eapply (proj1 daytime_naive_in_table_zone iso_parse us_zones
            (at_2015_06_05 12 0 0 None) _ "America/New_York").
  - reflexivity.
  - apply cycle_2015_resolves.
  - reflexivity.
  - reflexivity.
  - reflexivity.
Defined.

(** C6 (counterexample).  The naive 07:00:00, which the specification
    classifies as true, classifies as false.  And the naive time is not
    always read in the table's zone: on 8 March 2015, when New York goes
    from standard to daylight time at 02:00, with a sunrise entry of
    01:00 the naive 16:30 is given the standard-time offset of the
    sunrise and classifies as false, while 16:30 localized in the zone,
    daylight time, is before the sunset of 17:00 and classifies as
    true. *)
Lemma daytime_naive_not_as_claimed :
  daytime iso_parse us_zones (at_2015_06_05 7 0 0 None) cycle_2015
  ≠ Ok (Some true)
  ∧ localize (us_zone "EST" "EDT" (-5)) (mk_datetime 2015 3 8 16 30 0 0 None)
    = Ok (mk_datetime 2015 3 8 16 30 0 0 (Some EDT))
  ∧ daytime iso_parse us_zones (mk_datetime 2015 3 8 16 30 0 0 (Some EDT))
      cycle_switch_day = Ok (Some true)
  ∧ daytime iso_parse us_zones (mk_datetime 2015 3 8 16 30 0 0 None)
      cycle_switch_day = Ok (Some false).
Proof.
  split; [vm_compute; discriminate|]. repeat split; vm_compute; reflexivity.
Qed.

(** One second later the naive time is in the day. *)
Example daytime_naive_after_sunrise :
  daytime iso_parse us_zones (at_2015_06_05 7 0 1 None) cycle_2015
  = Ok (Some true).
Proof. vm_compute. reflexivity. Qed.

(** C3 (the code at the failing input).  The year 2015 is a key of the
    dictionary and 6 June is no key under it: [daytime] raises [KeyError],
    while for a year that is no key it returns [None]. *)
Theorem daytime_missing_month_day_raises :
  daytime iso_parse us_zones (mk_datetime 2015 6 6 12 0 0 0 None) cycle_2015
  = Raise KeyError
  ∧ daytime iso_parse us_zones (mk_datetime 2016 6 5 12 0 0 0 None) cycle_2015
    = Ok None.
Proof. split; vm_compute; reflexivity. Qed.

(* ================================================================== *)
(** * Properties of strings and of the text layer *)
(* ================================================================== *)

Lemma append_nil_l (s : string) : EmptyString +:+ s = s.
Proof. reflexivity. Qed.

Lemma append_cons (c : ascii) (s t : string) :
  String c s +:+ t = String c (s +:+ t).
Proof. reflexivity. Qed.

Lemma append_nil_r (s : string) : s +:+ EmptyString = s.
Proof.
  induction s as [|c s IH]; [done|]. by rewrite append_cons, IH.
Qed.

Lemma append_assoc (s1 s2 s3 : string) :
  (s1 +:+ s2) +:+ s3 = s1 +:+ (s2 +:+ s3).
Proof.
  induction s1 as [|c s1 IH]; [done|]. by rewrite !append_cons, IH.
Qed.

(** On a POSIX system writing translates nothing. *)
Lemma write_newlines_id (s : string) : write_newlines s = s.
Proof.
  induction s as [|c s IH]; simpl; [done|]. rewrite IH.
  destruct (Ascii.eqb_spec c LF) as [->|_]; reflexivity.
Qed.

(* ================================================================== *)
(** * Properties of the file functions *)
(* ================================================================== *)

(** The loop of [write_csv] appends the records of the rows from index
    [x] on, and touches no handle. *)
Lemma write_loop_spec (f : file) (data : list (list string)) (n x : nat)
    (w : world) (text : string) :
  handle f ∈ opened w →
  files w !! path f = Some text →
  (x + n = length data)%nat →
  write_loop f data x n w
  = (Ok tt, mk_world (<[path f := text +:+ csv_text (drop x data)]> (files w))
                     (opened w) (next_handle w) (unwritable w)).
Proof.
  revert x w text. induction n as [|n IH]; intros x w text Hopen Hfile Hlen.
  - simpl. rewrite drop_ge by lia. simpl. rewrite append_nil_r.
    rewrite insert_id by done. by destruct w.
  - assert (is_Some (data !! x)) as [row Hrow]
      by (apply lookup_lt_is_Some; lia).
    simpl. rewrite Hrow. unfold mbind, io_bind, writerow, file_write.
    rewrite bool_decide_eq_true_2 by done. rewrite Hfile.
    rewrite (IH (S x) _ (text +:+ write_newlines (format_row row)));
      simpl; [|done|by rewrite lookup_insert_eq|lia].
    rewrite insert_insert_eq, write_newlines_id, append_assoc.
    by rewrite (drop_S _ _ _ Hrow).
Qed.

(** What [write_csv] does, by the two ways it can end: when the name
    cannot be opened for writing it raises the error of [open] and leaves
    everything as it was; otherwise it returns normally, leaves the text
    of the table in the file, and closes the handle it opened. *)
Lemma write_csv_spec (data : list (list string)) (filename : string)
    (w : world) :
  write_csv data filename w
  = match unwritable w !! filename with
    | Some e => (Raise e, w)
    | None =>
        (Ok tt, mk_world (<[filename := csv_text data]> (files w))
                  (({[ next_handle w ]} ∪ opened w) ∖ {[ next_handle w ]})
                  (S (next_handle w)) (unwritable w))
    end.
Proof.
  unfold write_csv, mbind, io_bind, open_write, add_handle.
  destruct (unwritable w !! filename) as [e|]; [done|].
  rewrite (write_loop_spec _ data (length data) 0 _ EmptyString);
    simpl; [|apply elem_of_union_l, elem_of_singleton_2; reflexivity
            |by rewrite lookup_insert_eq|done].
  by rewrite insert_insert_eq.
Qed.

(** The reader raises nothing but its own error. *)
Lemma parse_process_char_raises limit r c e :
  parse_process_char limit r c = Raise e → e = CsvError.
Proof.
  unfold parse_process_char, start_field, parse_add_char.
  destruct (state r); repeat case_match; simpl; congruence.
Qed.

Lemma feed_line_raises limit line r e :
  feed_line limit r line = Raise e → e = CsvError.
Proof.
  revert r. induction line as [|c line IH]; intros r; simpl; [done|].
  destruct (Ascii.eqb c NUL); [congruence|].
  destruct (parse_process_char limit r c) as [r'|e'] eqn:Hc; simpl.
  - apply IH.
  - intros [= <-]. by apply parse_process_char_raises in Hc.
Qed.

Lemma read_rows_raises limit lines r e :
  read_rows limit r lines = Raise e → e = CsvError.
Proof.
  revert r. induction lines as [|line lines IH]; intros r; simpl; [done|].
  destruct (feed_line limit r line) as [r1|e1] eqn:H1; simpl;
    [|intros [= <-]; by apply feed_line_raises in H1].
  destruct (parse_process_char limit r1 NUL) as [r2|e2] eqn:H2; simpl;
    [|intros [= <-]; by apply parse_process_char_raises in H2].
  destruct (state r2); try apply IH.
  destruct (read_rows limit fresh_reader lines) as [rows|e3] eqn:H3; simpl;
    [done|].
  intros [= <-]. by apply IH in H3.
Qed.

(** What [read_csv] does, by the three ways it can end. *)
Lemma read_csv_spec (filename : string) (w : world) :
  read_csv filename w =
  match files w !! filename with
  | None => (Raise FileNotFoundError, w)
  | Some text =>
      match read_rows field_size_limit fresh_reader
              (splitlines (universal_newlines text)) with
      | Ok rows =>
          (Ok rows,
           mk_world (files w)
             (({[ next_handle w ]} ∪ opened w) ∖ {[ next_handle w ]})
             (S (next_handle w)) (unwritable w))
      | Raise e =>
          (Raise e,
           mk_world (files w) ({[ next_handle w ]} ∪ opened w)
             (S (next_handle w)) (unwritable w))
      end
  end.
Proof.
  unfold read_csv, mbind, io_bind, open_read, add_handle, file_lines,
    file_read, mbind, io_bind, mret, io_ret, lift, close.
  destruct (files w !! filename) as [text|] eqn:Hf; [|done]. simpl.
  rewrite bool_decide_eq_true_2
    by (apply elem_of_union_l, elem_of_singleton_2; reflexivity).
  rewrite Hf. by destruct (read_rows _ _ _).
Qed.

Lemma closed_again (w : world) :
  wf_world w → ({[ next_handle w ]} ∪ opened w) ∖ {[ next_handle w ]} = opened w.
Proof.
  intros Hwf. apply set_eq. intros h.
  rewrite elem_of_difference, elem_of_union, elem_of_singleton.
  split; [tauto|]. intros Hh. split; [tauto|].
  intros ->. apply Hwf in Hh. lia.
Qed.

Section HandleFacts.

Variable json_loads : string -> option json.

(** [read_json] closes the handle before it parses, so both outcomes
    leave the handles as they were. *)
Lemma read_json_spec (filename : string) (w : world) :
  read_json json_loads filename w =
  match files w !! filename with
  | None => (Raise FileNotFoundError, w)
  | Some text =>
      (match json_loads (universal_newlines text) with
       | Some v => Ok v
       | None => Raise JSONDecodeError
       end,
       mk_world (files w)
         (({[ next_handle w ]} ∪ opened w) ∖ {[ next_handle w ]})
         (S (next_handle w)) (unwritable w))
  end.
Proof.
  unfold read_json, mbind, io_bind, open_read, add_handle, file_read, lift,
    close.
  destruct (files w !! filename) as [text|] eqn:Hf; [|done]. simpl.
  rewrite bool_decide_eq_true_2
    by (apply elem_of_union_l, elem_of_singleton_2; reflexivity).
  by rewrite Hf.
Qed.

(** C9 (as amended).  Each of the three file functions closes the handle
    it opened before it returns normally.  [read_json] has closed it as
    well when the parser rejects the text, and a call that fails to open
    its file has opened nothing.  [read_csv] keeps no such discipline when
    the csv reader fails in the middle of the file: the error leaves the
    function with the handle still open. *)
Theorem handles_closed_on_normal_return (w : world) :
  wf_world w →
  (∀ filename rows w',
     read_csv filename w = (Ok rows, w') → opened w' = opened w)
  ∧ (∀ data filename, unwritable w !! filename = None →
       ∃ w', write_csv data filename w = (Ok tt, w') ∧ opened w' = opened w)
  ∧ (∀ data filename e, unwritable w !! filename = Some e →
       write_csv data filename w = (Raise e, w))
  ∧ (∀ filename r w',
       read_json json_loads filename w = (r, w') → opened w' = opened w)
  ∧ (∀ filename w',
       read_csv filename w = (Raise FileNotFoundError, w') →
       opened w' = opened w)
  ∧ (∀ filename w',
       read_csv filename w = (Raise CsvError, w') →
       (next_handle w ∉ opened w) ∧ (next_handle w ∈ opened w')).
Proof.
  intros Hwf. pose proof (closed_again w Hwf) as Hclosed.
  split; [|split; [|split; [|split; [|split]]]].
  - intros filename rows w'. rewrite read_csv_spec.
    destruct (files w !! filename); [|done].
    destruct (read_rows _ _ _); [|done]. intros [= _ <-]. done.
  - intros data filename Hopen. rewrite write_csv_spec, Hopen.
    eexists. split; [reflexivity|done].
  - intros data filename e Hopen. by rewrite write_csv_spec, Hopen.
  - intros filename r w'. rewrite read_json_spec.
    destruct (files w !! filename); intros [= _ <-]; done.
  - intros filename w'. rewrite read_csv_spec.
    destruct (files w !! filename); [|by intros [= <-]].
    destruct (read_rows _ _ _) as [|e] eqn:Hr; [done|].
    intros [= -> _]. by apply read_rows_raises in Hr.
  - intros filename w'. rewrite read_csv_spec.
    destruct (files w !! filename); [|done].
    destruct (read_rows _ _ _); [done|]. intros [= _ <-]. simpl. split.
    + intros Hh%Hwf. lia.
    + apply elem_of_union_l, elem_of_singleton_2. reflexivity.
Qed.

End HandleFacts.

(** C9 (witness).  From a world with no handle open. *)
Lemma handles_closed_on_normal_return_witness :
  (∀ filename rows w',
     read_csv filename (with_file "f.csv" bad_csv) = (Ok rows, w') →
     opened w' = opened (with_file "f.csv" bad_csv))
  ∧ (∀ data filename,
       unwritable (with_file "f.csv" bad_csv) !! filename = None →
       ∃ w', write_csv data filename (with_file "f.csv" bad_csv) = (Ok tt, w')
             ∧ opened w' = opened (with_file "f.csv" bad_csv))
  ∧ (∀ data filename e,
       unwritable (with_file "f.csv" bad_csv) !! filename = Some e →
       write_csv data filename (with_file "f.csv" bad_csv)
       = (Raise e, with_file "f.csv" bad_csv))
  ∧ (∀ filename r w',
       read_json no_json filename (with_file "f.csv" bad_csv) = (r, w') →
       opened w' = opened (with_file "f.csv" bad_csv))
  ∧ (∀ filename w',
       read_csv filename (with_file "f.csv" bad_csv)
       = (Raise FileNotFoundError, w') →
       opened w' = opened (with_file "f.csv" bad_csv))
  ∧ (∀ filename w',
       read_csv filename (with_file "f.csv" bad_csv) = (Raise CsvError, w') →
       (next_handle (with_file "f.csv" bad_csv)
          ∉ opened (with_file "f.csv" bad_csv))
       ∧ (next_handle (with_file "f.csv" bad_csv) ∈ opened w')).
Proof.
  apply (handles_closed_on_normal_return no_json (with_file "f.csv" bad_csv)).
  intros h Hh. simpl in Hh. by apply not_elem_of_empty in Hh.
Defined.

(** C9 (counterexample).  [read_csv] on that file: the reader raises on
    the second line, and when the call has ended the handle it opened,
    handle 0, is still open. *)
Lemma read_csv_leaks_on_error :
  opened (with_file "f.csv" bad_csv) = ∅
  ∧ (read_csv "f.csv" (with_file "f.csv" bad_csv)).1 = Raise CsvError
  ∧ elements (opened (read_csv "f.csv" (with_file "f.csv" bad_csv)).2)
    = [0%nat].
Proof. repeat split; vm_compute; reflexivity. Qed.

(** [read_json] on a text that is no JSON: the error comes after the
    handle was closed. *)
Example read_json_closes_before_parsing :
  (read_json no_json "f.csv" (with_file "f.csv" bad_csv)).1
  = Raise JSONDecodeError
  ∧ elements (opened (read_json no_json "f.csv" (with_file "f.csv" bad_csv)).2)
    = [].
Proof. repeat split; vm_compute; reflexivity. Qed.

(* ================================================================== *)
(** * Properties of the csv reader *)
(* ================================================================== *)

Section ReaderFacts.

(** The limit on the size of a field the reader runs under. *)
Variable limit : Z.

Lemma feed_line_app (a b : string) (r : reader) :
  feed_line limit r (a +:+ b) = feed_line limit r a ≫= λ r', feed_line limit r' b.
Proof.
  revert r. induction a as [|c a IH]; intros r; [done|].
  rewrite append_cons. simpl.
  destruct (Ascii.eqb c NUL); [done|].
  destruct (parse_process_char limit r c) as [r'|e]; simpl; [apply IH|done].
Qed.

Lemma feed_line_snoc (cur : string) (c : ascii) (r0 r r1 : reader) :
  feed_line limit r0 cur = Ok r →
  Ascii.eqb c NUL = false →
  parse_process_char limit r c = Ok r1 →
  feed_line limit r0 (cur +:+ String c EmptyString) = Ok r1.
Proof.
  intros Hcur Hc Hr1. rewrite feed_line_app, Hcur. simpl.
  by rewrite Hc, Hr1.
Qed.

Lemma is_empty_snoc (s : string) (c : ascii) :
  is_empty (s +:+ String c EmptyString) = false.
Proof. by destruct s. Qed.

(** Reading the lines of a text is reading the text character by
    character. *)
Lemma read_rows_stream (s cur : string) (r0 r : reader)
    (rows : list (list string)) :
  feed_line limit r0 cur = Ok r →
  stream limit r (negb (is_empty cur)) s = Ok rows →
  read_rows limit r0 (splitlines_from cur s) = Ok rows.
Proof.
  revert cur r0 r rows.
  induction s as [|c s IH]; intros cur r0 r rows Hcur.
  - destruct cur as [|c' cur'].
    + injection Hcur as <-. done.
    + cbn [splitlines_from read_rows is_empty negb stream].
      rewrite Hcur. simpl.
      destruct (parse_process_char limit r NUL) as [r2|e]; simpl; [|done].
      destruct (state r2); done.
  - simpl.
    destruct (Ascii.eqb c NUL) eqn:Hnul; [done|].
    destruct (parse_process_char limit r c) as [r1|e] eqn:Hr1; simpl; [|done].
    pose proof (feed_line_snoc cur c r0 r r1 Hcur Hnul Hr1) as Hline.
    destruct (Ascii.eqb c LF) eqn:Hlf.
    + destruct (parse_process_char limit r1 NUL) as [r2|e] eqn:Hr2; simpl; [|done].
      rewrite Hline. simpl. rewrite Hr2. simpl.
      destruct (state r2);
        try (intros Hs; by apply (IH EmptyString r2 r2 rows)).
      destruct (stream limit fresh_reader false s) as [rows'|e] eqn:Hs; simpl;
        [|done].
      intros [= <-].
      by rewrite (IH EmptyString fresh_reader fresh_reader rows').
    + intros Hs. apply (IH _ r0 r1 rows Hline).
      by rewrite is_empty_snoc.
Qed.

(** ** One step of the character-by-character reading *)

Lemma stream_step (r r1 : reader) (mid : bool) (c : ascii) (rest : string) :
  Ascii.eqb c NUL = false →
  Ascii.eqb c LF = false →
  parse_process_char limit r c = Ok r1 →
  stream limit r mid (String c rest) = stream limit r1 true rest.
Proof. intros Hnul Hlf Hr1. simpl. by rewrite Hnul, Hr1, Hlf. Qed.

Lemma stream_step_lf (r r1 r2 : reader) (mid : bool) (rest : string) :
  parse_process_char limit r LF = Ok r1 →
  parse_process_char limit r1 NUL = Ok r2 →
  stream limit r mid (String LF rest)
  = match state r2 with
    | START_RECORD =>
        rows ← stream limit fresh_reader false rest; Ok (fields r2 :: rows)
    | _ => stream limit r2 false rest
    end.
Proof. intros Hr1 Hr2. simpl. rewrite Hr1. simpl. by rewrite Hr2. Qed.

(** The characters the reader treats apart, told from a character [c]. *)
Lemma special_false (c : ascii) :
  special c = false →
  Ascii.eqb c COMMA = false ∧ Ascii.eqb c DQUOTE = false
  ∧ Ascii.eqb c CR = false ∧ Ascii.eqb c LF = false.
Proof.
  unfold special. intros H.
  repeat (apply orb_false_elim in H as [H ?]). done.
Qed.

(** A field below the limit takes one more character; a field that has
    reached it takes none. *)
Lemma parse_add_char_below (r : reader) (c : ascii) :
  Z.of_nat (String.length (field r)) < limit →
  parse_add_char limit r c
  = Ok (mk_reader (state r) (fields r) (field r +:+ String c EmptyString)).
Proof.
  intros Hlen. unfold parse_add_char.
  by destruct (Z.leb_spec limit (Z.of_nat (String.length (field r)))); [lia|].
Qed.

Lemma parse_add_char_full (r : reader) (c : ascii) :
  limit ≤ Z.of_nat (String.length (field r)) →
  parse_add_char limit r c = Raise CsvError.
Proof.
  intros Hlen. unfold parse_add_char.
  by destruct (Z.leb_spec limit (Z.of_nat (String.length (field r)))); [|lia].
Qed.

Lemma str_length_app (a b : string) :
  String.length (a +:+ b) = (String.length a + String.length b)%nat.
Proof.
  induction a as [|c a IH]; [done|]. rewrite append_cons. simpl. by rewrite IH.
Qed.

Lemma process_in_field_plain (fs : list string) (f : string) (c : ascii) :
  special c = false → Ascii.eqb c NUL = false →
  Z.of_nat (String.length f) < limit →
  parse_process_char limit (mk_reader IN_FIELD fs f) c
  = Ok (mk_reader IN_FIELD fs (f +:+ String c EmptyString)).
Proof.
  intros (Hcomma & _ & Hcr & Hlf)%special_false Hnul Hlen.
  unfold parse_process_char, is_eol. simpl. rewrite Hlf, Hcr, Hnul, Hcomma.
  simpl. by rewrite parse_add_char_below.
Qed.

Lemma process_start_field_plain (fs : list string) (f : string) (c : ascii) :
  special c = false → Ascii.eqb c NUL = false →
  Z.of_nat (String.length f) < limit →
  parse_process_char limit (mk_reader START_FIELD fs f) c
  = Ok (mk_reader IN_FIELD fs (f +:+ String c EmptyString)).
Proof.
  intros (Hcomma & Hdq & Hcr & Hlf)%special_false Hnul Hlen.
  unfold parse_process_char, start_field, is_eol. simpl.
  rewrite Hlf, Hcr, Hnul, Hdq, Hcomma. simpl.
  by rewrite parse_add_char_below.
Qed.

Lemma process_in_quoted_other (fs : list string) (f : string) (c : ascii) :
  Ascii.eqb c DQUOTE = false → Ascii.eqb c NUL = false →
  Z.of_nat (String.length f) < limit →
  parse_process_char limit (mk_reader IN_QUOTED_FIELD fs f) c
  = Ok (mk_reader IN_QUOTED_FIELD fs (f +:+ String c EmptyString)).
Proof.
  intros Hdq Hnul Hlen. unfold parse_process_char. simpl. rewrite Hnul, Hdq.
  by rewrite parse_add_char_below.
Qed.

(** A quote character doubled inside a quoted field is one quote of the
    field. *)
Lemma process_doubled_quote (fs : list string) (f : string) :
  Z.of_nat (String.length f) < limit →
  parse_process_char limit (mk_reader QUOTE_IN_QUOTED_FIELD fs f) DQUOTE
  = Ok (mk_reader IN_QUOTED_FIELD fs (f +:+ String DQUOTE EmptyString)).
Proof.
  intros Hlen. unfold parse_process_char. simpl.
  by rewrite parse_add_char_below.
Qed.

(** At the start of a record a character that ends no line is handled as
    at the start of a field. *)
Lemma process_start_record (fs : list string) (f : string) (c : ascii) :
  Ascii.eqb c NUL = false → Ascii.eqb c LF = false → Ascii.eqb c CR = false →
  parse_process_char limit (mk_reader START_RECORD fs f) c
  = parse_process_char limit (mk_reader START_FIELD fs f) c.
Proof.
  intros Hnul Hlf Hcr. unfold parse_process_char. simpl.
  by rewrite Hnul, Hlf, Hcr.
Qed.

(** ** Reading back one field *)

(** The end of a field, from the three states a field can end in. *)
Lemma stream_end_of_field (st : parser_state) (fs : list string)
    (f : string) (mid : bool) (d : ascii) (t : string) :
  st = START_FIELD ∨ st = IN_FIELD ∨ st = QUOTE_IN_QUOTED_FIELD →
  d = COMMA ∨ d = LF →
  stream limit (mk_reader st fs f) mid (String d t) = after_field limit (fs ++ [f]) d t.
Proof.
  intros Hst [-> | ->]; unfold after_field.
  - destruct Hst as [-> | [-> | ->]]; reflexivity.
  - destruct Hst as [-> | [-> | ->]]; reflexivity.
Qed.

(** An unquoted field: its characters are added one by one. *)
Lemma stream_in_field (s : string) (fs : list string) (f : string)
    (mid : bool) (d : ascii) (t : string) :
  str_exists special s = false →
  clean_cell s = true →
  d = COMMA ∨ d = LF →
  Z.of_nat (String.length f + String.length s) ≤ limit →
  stream limit (mk_reader IN_FIELD fs f) mid (s +:+ String d t)
  = after_field limit (fs ++ [f +:+ s]) d t.
Proof.
  revert f mid. induction s as [|c s IH]; intros f mid Hplain Hclean Hd Hlen.
  - rewrite append_nil_l, append_nil_r.
    apply stream_end_of_field; [tauto|done].
  - simpl in Hplain, Hclean, Hlen.
    apply orb_false_elim in Hplain as [Hc Hplain].
    apply andb_true_iff in Hclean as [Hcc Hclean].
    assert (Ascii.eqb c NUL = false) as Hnul.
    { unfold clean_char in Hcc. apply andb_true_iff in Hcc as [_ Hcc].
      by apply negb_true_iff in Hcc. }
    rewrite append_cons.
    rewrite (stream_step _ _ _ _ _ Hnul (proj2 (proj2 (proj2 (special_false c Hc))))
               (process_in_field_plain fs f c Hc Hnul ltac:(lia))).
    rewrite (IH _ _ Hplain Hclean Hd)
      by (rewrite str_length_app; simpl; lia).
    by rewrite append_assoc.
Qed.

(** A quoted field: doubled quotes give one quote, a line feed inside the
    quotes is part of the field, and the closing quote ends it. *)
Lemma stream_in_quoted (s : string) (fs : list string) (f : string)
    (mid : bool) (d : ascii) (t : string) :
  clean_cell s = true →
  d = COMMA ∨ d = LF →
  Z.of_nat (String.length f + String.length s) ≤ limit →
  stream limit (mk_reader IN_QUOTED_FIELD fs f) mid
    (field_data s +:+ String DQUOTE (String d t))
  = after_field limit (fs ++ [f +:+ s]) d t.
Proof.
  revert f mid. induction s as [|c s IH]; intros f mid Hclean Hd Hlen.
  - simpl field_data. rewrite append_nil_l, append_nil_r.
    rewrite (stream_step _ (mk_reader QUOTE_IN_QUOTED_FIELD fs f));
      [|done|done|done].
    apply stream_end_of_field; [tauto|done].
  - simpl in Hclean, Hlen. apply andb_true_iff in Hclean as [Hcc Hclean].
    assert (Ascii.eqb c NUL = false) as Hnul.
    { unfold clean_char in Hcc. apply andb_true_iff in Hcc as [_ Hcc].
      by apply negb_true_iff in Hcc. }
    assert (Z.of_nat (String.length f) < limit) as Hf by lia.
    assert (Z.of_nat (String.length (f +:+ String c EmptyString)
                      + String.length s) ≤ limit) as Hlen'
      by (rewrite str_length_app; simpl; lia).
    assert (f +:+ String c s = (f +:+ String c EmptyString) +:+ s) as ->
      by (by rewrite append_assoc).
    simpl field_data.
    destruct (Ascii.eqb_spec c DQUOTE) as [-> | Hdq].
    + rewrite !append_cons.
      rewrite (stream_step _ (mk_reader QUOTE_IN_QUOTED_FIELD fs f));
        [|done|done|done].
      rewrite (stream_step _
                 (mk_reader IN_QUOTED_FIELD fs (f +:+ String DQUOTE EmptyString)));
        [|done|done|by apply process_doubled_quote].
      by apply IH.
    + apply Ascii.eqb_neq in Hdq. rewrite append_cons.
      destruct (Ascii.eqb_spec c LF) as [-> | Hlf].
      * rewrite (stream_step_lf _
                   (mk_reader IN_QUOTED_FIELD fs (f +:+ String LF EmptyString))
                   (mk_reader IN_QUOTED_FIELD fs (f +:+ String LF EmptyString)));
          [|by apply process_in_quoted_other|done].
        simpl. by apply IH.
      * apply Ascii.eqb_neq in Hlf.
        rewrite (stream_step _ _ _ _ _ Hnul Hlf
                   (process_in_quoted_other fs f c Hdq Hnul Hf)).
        by apply IH.
Qed.

(** A field as the writer formats it, read from the start of a field. *)
Lemma stream_field (s : string) (fs : list string) (mid : bool)
    (d : ascii) (t : string) :
  clean_cell s = true →
  fits limit s = true →
  d = COMMA ∨ d = LF →
  stream limit (mk_reader START_FIELD fs EmptyString) mid
    (format_field s +:+ String d t)
  = after_field limit (fs ++ [s]) d t.
Proof.
  intros Hclean Hfits%Z.leb_le Hd. unfold format_field.
  destruct (str_exists special s) eqn:Hsp.
  - unfold quoted. rewrite append_cons, append_assoc, append_cons, append_nil_l.
    rewrite (stream_step _ (mk_reader IN_QUOTED_FIELD fs EmptyString));
      [|done|done|done].
    by rewrite (stream_in_quoted s fs EmptyString true d t Hclean Hd).
  - destruct s as [|c s].
    + rewrite append_nil_l. apply stream_end_of_field; [tauto|done].
    + simpl in Hsp, Hclean, Hfits.
      apply orb_false_elim in Hsp as [Hc Hsp].
      apply andb_true_iff in Hclean as [Hcc Hclean].
      assert (Ascii.eqb c NUL = false) as Hnul.
      { unfold clean_char in Hcc. apply andb_true_iff in Hcc as [_ Hcc].
        by apply negb_true_iff in Hcc. }
      rewrite append_cons.
      rewrite (stream_step _ _ _ _ _ Hnul
                 (proj2 (proj2 (proj2 (special_false c Hc))))
                 (process_start_field_plain fs EmptyString c Hc Hnul
                    ltac:(simpl; lia))).
      rewrite append_nil_l.
      by rewrite (stream_in_field s fs _ true d t Hsp Hclean Hd)
        by (simpl; lia).
Qed.

(** ** Reading back one record *)

(** The fields of a row, from the start of a field to the end of the
    line. *)
Lemma stream_fields (row : list string) (fs : list string) (mid : bool)
    (t : string) :
  row ≠ [] →
  Forall (fun cell => clean_cell cell = true) row →
  Forall (fun cell => fits limit cell = true) row →
  stream limit (mk_reader START_FIELD fs EmptyString) mid
    (join_fields row +:+ String LF t)
  = rows ← stream limit fresh_reader false t; Ok ((fs ++ row) :: rows).
Proof.
  revert fs mid.
  induction row as [|f row IH]; intros fs mid Hne Hclean Hfits; [done|].
  apply Forall_cons in Hclean as [Hf Hrow].
  apply Forall_cons in Hfits as [Hff Hfrow].
  destruct row as [|g row].
  - simpl join_fields. rewrite (stream_field f fs mid LF t Hf Hff); [|tauto].
    reflexivity.
  - change (join_fields (f :: g :: row))
      with (format_field f +:+ String COMMA (join_fields (g :: row))).
    rewrite append_assoc, append_cons.
    rewrite (stream_field f fs mid COMMA _ Hf Hff); [|tauto].
    unfold after_field. simpl Ascii.eqb. cbv iota.
    rewrite (IH (fs ++ [f]) true); [|done|done|done].
    by rewrite <- app_assoc.
Qed.

Lemma format_field_starts_plain (s : string) :
  clean_cell s = true → starts_plain (format_field s).
Proof.
  intros Hclean. unfold format_field.
  destruct (str_exists special s) eqn:Hsp; [done|].
  destruct s as [|c s]; [done|]. simpl in *.
  apply orb_false_elim in Hsp as [Hc _].
  apply andb_true_iff in Hclean as [Hcc _].
  destruct (special_false c Hc) as (_ & _ & Hcr & Hlf).
  unfold clean_char in Hcc. apply andb_true_iff in Hcc as [_ Hnul].
  by apply negb_true_iff in Hnul.
Qed.

Lemma join_fields_starts_plain (row : list string) :
  Forall (fun cell => clean_cell cell = true) row →
  starts_plain (join_fields row).
Proof.
  intros Hclean. destruct row as [|f row]; [done|].
  apply Forall_cons in Hclean as [Hf _].
  pose proof (format_field_starts_plain f Hf) as Hstart.
  destruct row as [|g row]; [done|].
  change (join_fields (f :: g :: row))
    with (format_field f +:+ String COMMA (join_fields (g :: row))).
  by destruct (format_field f).
Qed.

(** A row whose record has no character is the empty row, or the row of
    one empty field. *)
Lemma join_fields_empty (f : string) (row : list string) :
  join_fields (f :: row) = EmptyString → f = EmptyString ∧ row = [].
Proof.
  intros Hjoin. destruct row as [|g row].
  - simpl in Hjoin. unfold format_field in Hjoin.
    destruct (str_exists special f); [discriminate|done].
  - change (join_fields (f :: g :: row))
      with (format_field f +:+ String COMMA (join_fields (g :: row)))
      in Hjoin.
    by destruct (format_field f).
Qed.

(** A whole record, from the start of a record. *)
Lemma stream_record (row : list string) (mid : bool) (t : string) :
  Forall (fun cell => clean_cell cell = true) row →
  Forall (fun cell => fits limit cell = true) row →
  stream limit fresh_reader mid (record_body row +:+ String LF t)
  = rows ← stream limit fresh_reader false t; Ok (row :: rows).
Proof.
  intros Hclean Hfits. unfold record_body.
  pose proof (join_fields_starts_plain row Hclean) as Hstart.
  destruct (join_fields row) as [|c body] eqn:Hjoin.
  - destruct row as [|f row].
    + rewrite append_nil_l. reflexivity.
    + (* the row is one empty field, written as two quotes *)
      destruct (join_fields_empty f row Hjoin) as [-> ->].
      reflexivity.
  - destruct Hstart as (Hnul & Hlf & Hcr).
    assert (row ≠ []) as Hne by (by intros ->).
    pose proof (stream_fields row [] mid t Hne Hclean Hfits) as Hfields.
    rewrite Hjoin in Hfields. change ([] ++ row) with row in Hfields.
    rewrite <- Hfields.
    rewrite append_cons. unfold fresh_reader. simpl.
    rewrite Hnul. by rewrite (process_start_record [] EmptyString c Hnul Hlf Hcr).
Qed.

(** ** Reading back a whole table *)

Lemma stream_table (data : list (list string)) :
  clean_table data → within_limit limit data →
  stream limit fresh_reader false (lf_text data) = Ok data.
Proof.
  intros Hclean Hfits. revert Hfits.
  induction Hclean as [|row data Hrow Hdata IH]; [reflexivity|].
  intros [Hfrow Hfdata]%Forall_cons.
  simpl lf_text. rewrite (stream_record row false _ Hrow Hfrow).
  by rewrite (IH Hfdata).
Qed.

Lemma read_rows_table (data : list (list string)) :
  clean_table data → within_limit limit data →
  read_rows limit fresh_reader (splitlines (lf_text data)) = Ok data.
Proof.
  intros Hclean Hfits. unfold splitlines.
  apply (read_rows_stream _ EmptyString fresh_reader fresh_reader);
    [reflexivity|]. by apply stream_table.
Qed.

(** ** A field over the limit *)

Lemma process_in_field_full (fs : list string) (f : string) (c : ascii) :
  special c = false → Ascii.eqb c NUL = false →
  limit ≤ Z.of_nat (String.length f) →
  parse_process_char limit (mk_reader IN_FIELD fs f) c = Raise CsvError.
Proof.
  intros (Hcomma & _ & Hcr & Hlf)%special_false Hnul Hlen.
  unfold parse_process_char, is_eol. simpl. rewrite Hlf, Hcr, Hnul, Hcomma.
  simpl. by rewrite parse_add_char_full.
Qed.

(** The reader gives up on the line at the character that would take an
    unquoted field over the limit. *)
Lemma feed_line_in_field_full (s t : string) (fs : list string) (f : string) :
  str_exists special s = false →
  clean_cell s = true →
  Z.of_nat (String.length f) ≤ limit →
  limit < Z.of_nat (String.length f + String.length s) →
  feed_line limit (mk_reader IN_FIELD fs f) (s +:+ t) = Raise CsvError.
Proof.
  revert f. induction s as [|c s IH]; intros f Hplain Hclean Hf Hlen.
  - simpl in Hlen. lia.
  - simpl in Hplain, Hclean, Hlen.
    apply orb_false_elim in Hplain as [Hc Hplain].
    apply andb_true_iff in Hclean as [Hcc Hclean].
    assert (Ascii.eqb c NUL = false) as Hnul.
    { unfold clean_char in Hcc. apply andb_true_iff in Hcc as [_ Hcc].
      by apply negb_true_iff in Hcc. }
    rewrite append_cons. cbn [feed_line]. rewrite Hnul.
    destruct (Z.lt_ge_cases (Z.of_nat (String.length f)) limit) as [Hlt|Hge].
    + rewrite (process_in_field_plain fs f c Hc Hnul Hlt). simpl.
      apply IH; [done|done| |]; rewrite str_length_app; simpl; lia.
    + by rewrite (process_in_field_full fs f c Hc Hnul Hge).
Qed.

(** A line that starts with an unquoted field longer than the limit
    makes the reader raise. *)
Lemma feed_line_long_field (cell t : string) :
  0 ≤ limit →
  str_exists special cell = false →
  clean_cell cell = true →
  limit < Z.of_nat (String.length cell) →
  feed_line limit fresh_reader (cell +:+ t) = Raise CsvError.
Proof.
  intros Hlimit Hplain Hclean Hlen.
  destruct cell as [|c s]; [simpl in Hlen; lia|].
  simpl in Hplain, Hclean, Hlen.
  apply orb_false_elim in Hplain as [Hc Hplain].
  apply andb_true_iff in Hclean as [Hcc Hclean].
  assert (Ascii.eqb c NUL = false) as Hnul.
  { unfold clean_char in Hcc. apply andb_true_iff in Hcc as [_ Hcc].
    by apply negb_true_iff in Hcc. }
  destruct (special_false c Hc) as (_ & _ & Hcr & Hlf).
  rewrite append_cons. cbn [feed_line]. rewrite Hnul.
  unfold fresh_reader.
  rewrite (process_start_record [] EmptyString c Hnul Hlf Hcr).
  destruct (Z.lt_ge_cases 0 limit) as [Hlt|Hge].
  - rewrite (process_start_field_plain [] EmptyString c Hc Hnul Hlt). simpl.
    apply feed_line_in_field_full; [done|done|simpl; lia|simpl; lia].
  - unfold parse_process_char, start_field, is_eol. simpl.
    destruct (special_false c Hc) as (Hcomma & Hdq & _ & _).
    rewrite Hlf, Hcr, Hnul, Hdq, Hcomma. simpl.
    by rewrite parse_add_char_full.
Qed.

(** A text of one line, and the reading of it when its only field is
    longer than the limit. *)
Lemma splitlines_from_line (s cur : string) :
  str_exists special s = false →
  splitlines_from cur (s +:+ String LF EmptyString)
  = [cur +:+ s +:+ String LF EmptyString].
Proof.
  revert cur. induction s as [|c s IH]; intros cur Hplain; [done|].
  simpl in Hplain. apply orb_false_elim in Hplain as [Hc Hplain].
  destruct (special_false c Hc) as (_ & _ & _ & Hlf).
  rewrite append_cons. cbn [splitlines_from]. rewrite Hlf.
  rewrite (IH _ Hplain). by rewrite append_assoc.
Qed.

Lemma read_rows_long_field (cell : string) :
  0 ≤ limit →
  str_exists special cell = false →
  clean_cell cell = true →
  limit < Z.of_nat (String.length cell) →
  read_rows limit fresh_reader (splitlines (cell +:+ String LF EmptyString))
  = Raise CsvError.
Proof.
  intros Hlimit Hplain Hclean Hlen. unfold splitlines.
  rewrite (splitlines_from_line cell EmptyString Hplain), append_nil_l.
  cbn [read_rows]. by rewrite feed_line_long_field.
Qed.

End ReaderFacts.

(* ================================================================== *)
(** * The round trip through a file *)
(* ================================================================== *)

Lemma str_exists_app (p : ascii → bool) (a b : string) :
  str_exists p (a +:+ b) = str_exists p a || str_exists p b.
Proof.
  induction a as [|c a IH]; [done|].
  rewrite append_cons. simpl. by rewrite IH, orb_assoc.
Qed.

Lemma clean_cell_no_cr (s : string) :
  clean_cell s = true → str_exists is_cr s = false.
Proof.
  induction s as [|c s IH]; [done|]. simpl.
  intros [Hc Hs]%andb_true_iff. rewrite (IH Hs), orb_false_r.
  unfold clean_char in Hc. apply andb_true_iff in Hc as [Hc _].
  by apply negb_true_iff in Hc.
Qed.

Lemma field_data_no_cr (s : string) :
  str_exists is_cr s = false → str_exists is_cr (field_data s) = false.
Proof.
  induction s as [|c s IH]; [done|]. simpl.
  intros [Hc Hs]%orb_false_elim.
  destruct (Ascii.eqb c DQUOTE); simpl; rewrite (IH Hs); [done|].
  by rewrite Hc.
Qed.

Lemma format_field_no_cr (s : string) :
  clean_cell s = true → str_exists is_cr (format_field s) = false.
Proof.
  intros Hs%clean_cell_no_cr. unfold format_field, quoted.
  destruct (str_exists special s); [|done].
  simpl. rewrite str_exists_app. by rewrite (field_data_no_cr s Hs).
Qed.

Lemma join_fields_no_cr (row : list string) :
  Forall (fun cell => clean_cell cell = true) row →
  str_exists is_cr (join_fields row) = false.
Proof.
  induction 1 as [|f row Hf Hrow IH]; [done|].
  destruct row as [|g row]; [by apply format_field_no_cr|].
  change (join_fields (f :: g :: row))
    with (format_field f +:+ String COMMA (join_fields (g :: row))).
  rewrite str_exists_app, (format_field_no_cr f Hf). simpl. apply IH.
Qed.

Lemma record_body_no_cr (row : list string) :
  Forall (fun cell => clean_cell cell = true) row →
  str_exists is_cr (record_body row) = false.
Proof.
  intros Hrow%join_fields_no_cr. unfold record_body.
  destruct (join_fields row); [by destruct row|done].
Qed.

Lemma format_row_body (row : list string) :
  format_row row = record_body row +:+ String CR (String LF EmptyString).
Proof. reflexivity. Qed.

(** Read back, the line terminator of a record is one LF, and a text with
    no CR of its own is not changed. *)
Lemma universal_newlines_record (s t : string) :
  str_exists is_cr s = false →
  universal_newlines (s +:+ String CR (String LF t))
  = s +:+ String LF (universal_newlines t).
Proof.
  induction s as [|c s IH]; [done|]. simpl.
  intros [Hc Hs]%orb_false_elim. rewrite !append_cons. simpl.
  unfold is_cr in Hc. rewrite Hc. by rewrite (IH Hs).
Qed.

Lemma universal_newlines_csv_text (data : list (list string)) :
  clean_table data → universal_newlines (csv_text data) = lf_text data.
Proof.
  induction 1 as [|row data Hrow Hdata IH]; [done|].
  simpl. rewrite format_row_body, append_assoc, !append_cons, append_nil_l.
  rewrite (universal_newlines_record _ _ (record_body_no_cr row Hrow)).
  by rewrite IH.
Qed.

(** The cells of copies of a character. *)
Lemma repeat_char_length (c : ascii) (n : nat) :
  String.length (repeat_char c n) = n.
Proof. induction n as [|n IH]; [done|]. simpl. by rewrite IH. Qed.

Lemma repeat_char_exists (p : ascii → bool) (c : ascii) (n : nat) :
  p c = false → str_exists p (repeat_char c n) = false.
Proof. intros Hc. induction n as [|n IH]; [done|]. simpl. by rewrite Hc, IH. Qed.

Lemma repeat_char_clean (c : ascii) (n : nat) :
  clean_char c = true → clean_cell (repeat_char c n) = true.
Proof. intros Hc. induction n as [|n IH]; [done|]. simpl. by rewrite Hc, IH. Qed.

Lemma plain_no_cr (s : string) :
  str_exists special s = false → str_exists is_cr s = false.
Proof.
  induction s as [|c s IH]; [done|]. simpl.
  intros [Hc Hs]%orb_false_elim. rewrite (IH Hs), orb_false_r.
  by destruct (special_false c Hc) as (_ & _ & Hcr & _).
Qed.

(** The record of a row of one cell that needs no quotes. *)
Lemma format_row_plain_cell (cell : string) :
  str_exists special cell = false → cell ≠ EmptyString →
  format_row [cell] = cell +:+ String CR (String LF EmptyString).
Proof.
  intros Hplain Hne. unfold format_row, join_fields, format_field.
  rewrite Hplain. by destruct cell.
Qed.

(** A table of one cell that is longer than the reader's limit: the file
    is written, and reading it back raises. *)
Lemma write_then_read_long_cell (cell filename : string) (w : world) :
  str_exists special cell = false →
  clean_cell cell = true →
  field_size_limit < Z.of_nat (String.length cell) →
  unwritable w !! filename = None →
  (write_then_read [[cell]] filename w).1 = Raise CsvError.
Proof.
  intros Hplain Hclean Hlen Hopen.
  assert (cell ≠ EmptyString) as Hne.
  { intros ->. simpl in Hlen. unfold field_size_limit in Hlen. lia. }
  unfold write_then_read, mbind, io_bind.
  rewrite write_csv_spec, Hopen, read_csv_spec. simpl files.
  rewrite lookup_insert_eq.
  unfold csv_text. cbn [foldr].
  rewrite (format_row_plain_cell cell Hplain Hne), append_nil_r.
  rewrite (universal_newlines_record _ _ (plain_no_cr cell Hplain)).
  cbn [universal_newlines].
  rewrite read_rows_long_field; [done| |done|done|done].
  unfold field_size_limit. lia.
Qed.

(** What a write that returns normally has done. *)
Lemma write_csv_returned (data : list (list string)) (filename : string)
    (w : world) :
  (write_csv data filename w).1 = Ok tt →
  unwritable w !! filename = None
  ∧ files (write_csv data filename w).2 !! filename = Some (csv_text data).
Proof.
  rewrite write_csv_spec.
  destruct (unwritable w !! filename) as [e|]; [discriminate|].
  intros _. split; [done|]. simpl. apply lookup_insert_eq.
Qed.

(** C8 (as amended).  For every table in which every cell has at most
    131072 characters and holds no carriage return and no NUL character
    (line feeds, delimiters and quote characters are allowed), writing
    the table with [write_csv] and, the write having returned, reading
    the file back with [read_csv] gives exactly the rows written, cell
    for cell, in their order. *)
Theorem write_then_read_roundtrip (data : list (list string))
    (filename : string) (w : world) :
  clean_table data →
  within_limit field_size_limit data →
  (write_csv data filename w).1 = Ok tt →
  (write_then_read data filename w).1 = Ok data.
Proof.
  intros Hclean Hfits [Hopen _]%write_csv_returned.
  unfold write_then_read, mbind, io_bind.
  rewrite write_csv_spec, Hopen, read_csv_spec. simpl files.
  rewrite lookup_insert_eq.
  rewrite (universal_newlines_csv_text data Hclean).
  by rewrite (read_rows_table field_size_limit data Hclean Hfits).
Qed.

(** C8 (witness). *)
Lemma write_then_read_roundtrip_witness :
  (write_then_read sample_table "file2.csv" empty_world).1 = Ok sample_table.
Proof.
  apply (write_then_read_roundtrip sample_table "file2.csv" empty_world).
  - repeat constructor.
  - repeat constructor.
  - reflexivity.
Defined.

(** C8 (counterexample).  Two tables of allowed characters that do not
    come back.  A cell holding a line break written CR LF: the carriage
    return is a character of the line terminator, so the writer quotes
    the cell; read back through a text file the line break has become a
    single line feed.  A cell of 131073 letters: the file is written, and
    the reader raises on the field. *)
Lemma write_then_read_loses_cells :
  format_field with_return = quoted with_return
  ∧ (write_then_read [[with_return]] "file2.csv" empty_world).1
    = Ok [[two_lines]]
  ∧ (write_then_read [[with_return]] "file2.csv" empty_world).1
    ≠ Ok [[with_return]]
  ∧ Z.of_nat (String.length long_cell) = field_size_limit + 1
  ∧ clean_table [[long_cell]]
  ∧ (write_csv [[long_cell]] "file2.csv" empty_world).1 = Ok tt
  ∧ (write_then_read [[long_cell]] "file2.csv" empty_world).1
    = Raise CsvError.
Proof.
  assert (Z.of_nat (String.length long_cell) = field_size_limit + 1) as Hlen.
  { unfold long_cell. rewrite repeat_char_length.
    unfold field_size_limit. lia. }
  assert (clean_cell long_cell = true) as Hclean
    by (by apply repeat_char_clean).
  split; [vm_compute; reflexivity|].
  split; [vm_compute; reflexivity|].
  split; [vm_compute; discriminate|].
  split; [exact Hlen|].
  split; [by repeat constructor|].
  split; [by rewrite write_csv_spec|].
  apply write_then_read_long_cell; [|done|lia|reflexivity].
  by apply repeat_char_exists.
Qed.

(** The text written for the sample table. *)
Example csv_text_sample :
  csv_text [["a"; quote_and_comma]; [""]]%string
  = String "a" (String ","
      (quoted quote_and_comma +:+ String CR (String LF
      (quoted EmptyString +:+ String CR (String LF EmptyString))))).
Proof. reflexivity. Qed.

(* ================================================================== *)
(** * Further properties of the keyed row lookup *)
(* ================================================================== *)

Section LookupMore.

Variable id : string.
Variable t : list (list string).

(** What the loop returns is the first matching row of its range. *)
Lemma get_for_id_loop_sound n x r :
  Lookup.get_for_id_loop id t x n = Ok (Some r) →
  ∃ i, (x ≤ i < x + n)%nat ∧ t !! i = Some r ∧ r !! 0%nat = Some id
       ∧ ∀ j r', (x ≤ j < i)%nat → t !! j = Some r' → Lookup.other_id id r'.
Proof.
  revert x. induction n as [|n IH]; intros x; [done|].
  simpl. unfold Lookup.cell0.
  destruct (t !! x) as [rx|] eqn:Hx; [|done].
  destruct (rx !! 0%nat) as [c|] eqn:Hc; [|done]. simpl.
  destruct (String.eqb_spec id c) as [->|Hne].
  - intros [= <-]. exists x. repeat split; [lia|lia|done|done|]. intros; lia.
  - intros (i & Hi & Hti & Hri & Hbefore)%IH.
    exists i. repeat split; [lia|lia|done|done|].
    intros j r' Hj Hj'. destruct (decide (j = x)) as [->|Hjx].
    + rewrite Hx in Hj'. injection Hj' as <-. exists c. split; [done|congruence].
    + apply (Hbefore j); [lia|done].
Qed.

(** The loop raises only at a row with no cell, reached before any
    match. *)
Lemma get_for_id_loop_raises n x e :
  (x + n ≤ length t)%nat →
  Lookup.get_for_id_loop id t x n = Raise e →
  e = IndexError
  ∧ ∃ i, (x ≤ i < x + n)%nat ∧ t !! i = Some []
         ∧ ∀ j r', (x ≤ j < i)%nat → t !! j = Some r' → Lookup.other_id id r'.
Proof.
  revert x. induction n as [|n IH]; intros x Hlen; [done|].
  simpl. unfold Lookup.cell0.
  assert (is_Some (t !! x)) as [rx Hx] by (apply lookup_lt_is_Some; lia).
  rewrite Hx. destruct rx as [|c rx'] eqn:Hrx; simpl.
  - intros [= <-]. split; [done|]. exists x. repeat split; [lia|lia|done|].
    intros; lia.
  - destruct (String.eqb_spec id c) as [->|Hne]; [done|].
    intros H. apply IH in H as (-> & i & Hi & Hti & Hbefore); [|lia].
    split; [done|]. exists i. repeat split; [lia|lia|done|].
    intros j r' Hj Hj'. destruct (decide (j = x)) as [->|Hjx].
    + rewrite Hx in Hj'. injection Hj' as <-. exists c. split; [done|congruence].
    + apply (Hbefore j); [lia|done].
Qed.

(** Over rows that all have a cell, the loop is the search for the first
    row whose first cell is the identifier. *)
Lemma get_for_id_loop_find n x :
  (x + n = length t)%nat →
  (∀ j r', (x ≤ j)%nat → t !! j = Some r' → r' ≠ []) →
  Lookup.get_for_id_loop id t x n = Ok (Lookup.find_by_id_spec id (drop x t)).
Proof.
  revert x. induction n as [|n IH]; intros x Hlen Hrows.
  - simpl. by rewrite drop_ge by lia.
  - assert (is_Some (t !! x)) as [rx Hx] by (apply lookup_lt_is_Some; lia).
    rewrite (drop_S _ _ _ Hx). simpl. unfold Lookup.cell0. rewrite Hx.
    destruct rx as [|c rx']; [by destruct (Hrows x [] ltac:(lia) Hx)|].
    simpl. destruct (String.eqb id c); [done|].
    rewrite IH; [done|lia|]. intros j r' Hj. apply Hrows. lia.
Qed.

End LookupMore.

(** One row more at the front shifts the loop by one index. *)
Lemma get_for_id_loop_shift id h t n x :
  Lookup.get_for_id_loop id (h :: t) (S x) n = Lookup.get_for_id_loop id t x n.
Proof.
  revert x. induction n as [|n IH]; intros x; [done|].
  simpl. unfold Lookup.cell0. simpl.
  destruct (t !! x) as [r|]; [|done].
  destruct (r !! 0%nat) as [c|]; [|done]. simpl.
  destruct (String.eqb id c); [done|apply IH].
Qed.

(** X1.  A row that [get_for_id] returns is a row of the table, at an
    index of at least 1, whose first cell is the identifier, and no row
    between index 1 and it carries the identifier. *)
Theorem get_for_id_returns_first_match (id : string)
    (t : list (list string)) (r : list string) :
  Lookup.get_for_id id t = Ok (Some r) →
  ∃ i, (1 ≤ i < length t)%nat ∧ t !! i = Some r ∧ r !! 0%nat = Some id
       ∧ ∀ j r', (1 ≤ j < i)%nat → t !! j = Some r' → Lookup.other_id id r'.
Proof.
  unfold Lookup.get_for_id.
  intros (i & Hi & Hti & Hri & Hbefore)%get_for_id_loop_sound.
  exists i. repeat split; try done; lia.
Qed.

Lemma get_for_id_returns_first_match_witness :
  ∃ i, (1 ≤ i < length Lookup.students)%nat
       ∧ Lookup.students !! i = Some ["S00324"; "426JQ"]%string
       ∧ ["S00324"; "426JQ"]%string !! 0%nat = Some "S00324"%string
       ∧ ∀ j r', (1 ≤ j < i)%nat → Lookup.students !! j = Some r' →
                 Lookup.other_id "S00324" r'.
Proof.
  apply (get_for_id_returns_first_match "S00324" Lookup.students).
  reflexivity.
Defined.

(** X2.  On a table whose rows from index 1 on all have a cell,
    [get_for_id] is the search for the first row whose first cell is the
    identifier, run on the table without its first row. *)
Theorem get_for_id_is_find_on_body (id : string) (t : list (list string)) :
  (∀ j r', (1 ≤ j)%nat → t !! j = Some r' → r' ≠ []) →
  Lookup.get_for_id id t = Ok (Lookup.find_by_id_spec id (drop 1 t)).
Proof.
  intros Hrows. unfold Lookup.get_for_id. destruct t as [|h t']; [done|].
  apply get_for_id_loop_find; [simpl; lia|done].
Qed.

Lemma get_for_id_is_find_on_body_witness :
  Lookup.get_for_id "S00309" Lookup.students
  = Ok (Lookup.find_by_id_spec "S00309" (drop 1 Lookup.students)).
Proof.
  apply (get_for_id_is_find_on_body "S00309" Lookup.students).
  intros j r' Hj Hr' ->.
  do 4 (destruct j as [|j]; [first [lia | discriminate Hr']|]).
  discriminate Hr'.
Defined.

(** X3.  [get_for_id] raises nothing but [IndexError], and only when a
    row at an index of at least 1 has no cell at all and no row between
    index 1 and it carries the identifier. *)
Theorem get_for_id_raises_on_empty_row (id : string)
    (t : list (list string)) (e : exn) :
  Lookup.get_for_id id t = Raise e →
  e = IndexError
  ∧ ∃ i, (1 ≤ i)%nat ∧ t !! i = Some []
         ∧ ∀ j r', (1 ≤ j < i)%nat → t !! j = Some r' → Lookup.other_id id r'.
Proof.
  unfold Lookup.get_for_id. destruct t as [|h t'] eqn:Ht; [done|].
  rewrite <- Ht. intros H.
  apply get_for_id_loop_raises in H as (-> & i & Hi & Hti & Hbefore);
    [|rewrite Ht; simpl; lia].
  split; [done|]. exists i. repeat split; [lia|done|done].
Qed.

Lemma get_for_id_raises_on_empty_row_witness :
  IndexError = IndexError
  ∧ ∃ i, (1 ≤ i)%nat
         ∧ [["STUDENT"]; ["S00308"]; []; ["S00309"]]%string !! i = Some []
         ∧ ∀ j r', (1 ≤ j < i)%nat →
             [["STUDENT"]; ["S00308"]; []; ["S00309"]]%string !! j = Some r' →
             Lookup.other_id "S00309" r'.
Proof.
  apply (get_for_id_raises_on_empty_row "S00309"
           [["STUDENT"]; ["S00308"]; []; ["S00309"]]%string IndexError).
  reflexivity.
Defined.

(** X4.  When the first row after the header does not carry the
    identifier, passing the table without its header gives the same
    result as passing the whole table. *)
Theorem get_for_id_without_header (id : string) (header first : list string)
    (rest : list (list string)) :
  Lookup.other_id id first →
  Lookup.get_for_id id (first :: rest)
  = Lookup.get_for_id id (header :: first :: rest).
Proof.
  intros Hfirst. unfold Lookup.get_for_id.
  change (length (header :: first :: rest) - 1)%nat with (S (length rest)).
  change (length (first :: rest) - 1)%nat with (length rest - 0)%nat.
  rewrite Nat.sub_0_r.
  rewrite (get_for_id_loop_skip id (header :: first :: rest) _ 1 first);
    [|done|done].
  by rewrite !get_for_id_loop_shift.
Qed.

Lemma get_for_id_without_header_witness :
  Lookup.get_for_id "S00324" (drop 1 Lookup.students)
  = Lookup.get_for_id "S00324" Lookup.students.
Proof.
  apply (get_for_id_without_header "S00324" ["STUDENT"; "AIRPLANE"]%string).
  exists "S00309"%string. split; [reflexivity|discriminate].
Defined.

(* ================================================================== *)
(** * Further properties of the temporal resolver *)
(* ================================================================== *)

Section ResolverMore.

Variable parse : string -> option datetime.
Variable pytz_timezone : string -> option zone.


(** X6.  With no hint [str_to_time] is the parser: it returns what the
    parser read, aware or naive, and [None] when the parser fails. *)
Theorem str_to_time_without_hint_is_parse (timestamp : string) :
  str_to_time parse pytz_timezone timestamp TzNone = Ok (parse timestamp).
Proof.
  unfold str_to_time. destruct (parse timestamp) as [d|]; [|done].
  by destruct (is_aware d).
Qed.

(** X7.  A date-time hint lends a naive timestamp its tzinfo and nothing
    else: the result has the parsed clock fields and the tzinfo of the
    hint, it is the hint itself when the hint shows the same clock
    fields, and any other hint with that tzinfo gives the same result. *)
Theorem str_to_time_borrows_tzinfo (timestamp : string) (d t : datetime) :
  parse timestamp = Some d →
  is_aware d = false →
  ∃ e, str_to_time parse pytz_timezone timestamp (TzDatetime t) = Ok (Some e)
       ∧ naive e = naive d
       ∧ dt_tzinfo e = dt_tzinfo t
       ∧ (naive t = naive d → e = t)
       ∧ (∀ t', dt_tzinfo t' = dt_tzinfo t →
            str_to_time parse pytz_timezone timestamp (TzDatetime t')
            = Ok (Some e)).
Proof.
  intros Hparse Hnaive. exists (replace_tzinfo d (dt_tzinfo t)).
  unfold str_to_time. rewrite Hparse, Hnaive.
  repeat split; [|by intros t' ->].
  destruct t, d. unfold naive, replace_tzinfo. simpl. by intros [= -> -> -> -> -> -> ->].
Qed.

(** X8.  The only exception [str_to_time] lets out is the one for an
    unknown zone name, and it does so exactly when the parsed timestamp is
    naive and the hint is a name the zone database does not know: the
    failure of the parser is caught, that of the zone lookup is not. *)
Theorem str_to_time_raises_iff_unknown_zone
    (timestamp : string) (tzsource : hint) (e : exn) :
  str_to_time parse pytz_timezone timestamp tzsource = Raise e
  ↔ e = UnknownTimeZoneError
    ∧ ∃ d name, parse timestamp = Some d ∧ is_aware d = false
                ∧ tzsource = TzStr name ∧ pytz_timezone name = None.
Proof.
  unfold str_to_time, timezone, localize. split.
  - destruct (parse timestamp) as [d|]; [|discriminate].
    destruct (is_aware d) eqn:Hd; [discriminate|].
    destruct tzsource as [|name|t|]; try discriminate.
    destruct (pytz_timezone name) as [tz|] eqn:Hz; simpl.
    + unfold is_aware in Hd. destruct (dt_tzinfo d); discriminate.
    + intros [= <-]. split; [done|]. by exists d, name.
  - intros (-> & d & name & -> & -> & -> & ->). reflexivity.
Qed.

(** X9.  [str_to_time] returns [None] in two cases only: the parser
    fails on the text, or the parsed timestamp is naive and the hint is
    neither [None], a string nor a date-time. *)
Theorem str_to_time_none_iff (timestamp : string) (tzsource : hint) :
  str_to_time parse pytz_timezone timestamp tzsource = Ok None
  ↔ parse timestamp = None
    ∨ (∃ d, parse timestamp = Some d ∧ is_aware d = false)
      ∧ tzsource = TzOther.
Proof.
  unfold str_to_time, timezone, localize. split.
  - destruct (parse timestamp) as [d|]; [|by left].
    destruct (is_aware d) eqn:Hd; [discriminate|].
    destruct tzsource as [|name|t|]; try discriminate.
    + destruct (pytz_timezone name) as [tz|]; [|discriminate]. simpl.
      destruct (dt_tzinfo d); discriminate.
    + intros _. right. split; [by exists d|done].
  - intros [->|[(d & -> & ->) ->]]; reflexivity.
Qed.

(** X10.  Whether the result is aware: it is when the parsed timestamp
    is, when the hint is a zone name, and when the hint is an aware
    date-time; with no hint, or with a naive date-time as hint, a naive
    timestamp stays naive. *)
Theorem str_to_time_awareness
    (timestamp : string) (tzsource : hint) (d e : datetime) :
  parse timestamp = Some d →
  str_to_time parse pytz_timezone timestamp tzsource = Ok (Some e) →
  is_aware e
  = is_aware d
    || match tzsource with
       | TzStr _ => true
       | TzDatetime t => is_aware t
       | _ => false
       end.
Proof.
  intros Hparse. unfold str_to_time, timezone, localize. rewrite Hparse.
  destruct (is_aware d) eqn:Hd; [by intros [= <-]|].
  destruct tzsource as [|name|t|]; simpl; try (by intros [= <-]).
  destruct (pytz_timezone name) as [tz|]; [|discriminate]. simpl.
  unfold is_aware in Hd. destruct (dt_tzinfo d); [discriminate|].
  by intros [= <-].
Qed.

End ResolverMore.


Lemma str_to_time_borrows_tzinfo_witness :
  ∃ e, str_to_time iso_parse us_zones "2016-05-12T16:23"
         (TzDatetime (mk_datetime 2016 5 12 16 23 0 0 (Some EDT)))
       = Ok (Some e)
       ∧ naive e = naive (mk_datetime 2016 5 12 16 23 0 0 None)
       ∧ dt_tzinfo e
         = dt_tzinfo (mk_datetime 2016 5 12 16 23 0 0 (Some EDT))
       ∧ (naive (mk_datetime 2016 5 12 16 23 0 0 (Some EDT))
          = naive (mk_datetime 2016 5 12 16 23 0 0 None) →
          e = mk_datetime 2016 5 12 16 23 0 0 (Some EDT))
       ∧ (∀ t', dt_tzinfo t'
                = dt_tzinfo (mk_datetime 2016 5 12 16 23 0 0 (Some EDT)) →
            str_to_time iso_parse us_zones "2016-05-12T16:23" (TzDatetime t')
            = Ok (Some e)).
Proof.
  apply (str_to_time_borrows_tzinfo iso_parse us_zones "2016-05-12T16:23").
  - vm_compute. reflexivity.
  - reflexivity.
Defined.

Lemma str_to_time_awareness_witness :
  is_aware (mk_datetime 2016 5 12 16 23 0 0 (Some CDT))
  = is_aware (mk_datetime 2016 5 12 16 23 0 0 None) || true.
Proof.
  apply (str_to_time_awareness iso_parse us_zones
           "2016-05-12T16:23" (TzStr "America/Chicago")).
  - vm_compute. reflexivity.
  - vm_compute. reflexivity.
Defined.

(* ================================================================== *)
(** * Further properties of the day/night classifier *)
(* ================================================================== *)

Lemma valid_datetime_replace_tzinfo (d : datetime) (tz : option tzinfo) :
  valid_datetime d → valid_datetime (replace_tzinfo d tz).
Proof. intros H. exact H. Qed.

Lemma valid_datetime_as_compared (time sunrise : datetime) :
  valid_datetime time → valid_datetime (as_compared time sunrise).
Proof.
  intros H. unfold as_compared. destruct (is_aware time); [done|].
  by apply valid_datetime_replace_tzinfo.
Qed.

Section ClassifierMore.

Variable parse : string -> option datetime.
Variable pytz_timezone : string -> option zone.

(** X11.  A dictionary that has no entry for the year of the time gives
    [None], for an aware and for a naive time alike, and whatever else the
    dictionary holds or lacks: nothing below the year is looked at. *)
Theorem daytime_unknown_year_is_none (time : datetime)
    (m : gmap string json) :
  m !! strftime time "%Y" = None →
  daytime parse pytz_timezone time (JDict m) = Ok None.
Proof.
  intros Hy. unfold daytime. cbn -[strftime String.append day_branches].
  rewrite Hy. rewrite bool_decide_eq_false_2; [reflexivity|].
  by intros [? ?].
Qed.

(** X12.  The zone of the table is read for every time, an aware one
    included: a dictionary whose entry for the date is complete but which
    has no [timezone] key makes [daytime] raise [KeyError]. *)
Theorem daytime_missing_timezone_raises (time : datetime)
    (m by_year by_day : gmap string json) (sr ss : string) :
  m !! strftime time "%Y" = Some (JDict by_year) →
  by_year !! strftime time "%m-%d" = Some (JDict by_day) →
  by_day !! "sunrise" = Some (JStr sr) →
  by_day !! "sunset" = Some (JStr ss) →
  m !! "timezone" = None →
  daytime parse pytz_timezone time (JDict m) = Raise KeyError.
Proof.
  intros Hy Hd Hsr Hss Htz. unfold daytime.
  cbn -[strftime String.append day_branches].
  rewrite Hy. rewrite bool_decide_eq_true_2 by eauto.
  cbn -[strftime String.append day_branches]. rewrite Hd.
  cbn -[strftime String.append day_branches]. rewrite Hsr, Hss.
  cbn -[strftime String.append day_branches]. by rewrite Htz.
Qed.

(** X13.  A sunrise entry that the parser cannot read is not reported as
    [None]: [str_to_time] gives [None] for it, and [daytime] goes on to
    use that value, so an aware time raises [TypeError] at the comparison
    and a naive time raises [AttributeError] at the access to the tzinfo
    of the sunrise. *)
Theorem daytime_unreadable_sunrise_raises (time : datetime)
    (m by_year by_day : gmap string json) (sr ss : string) (tzsource : json)
    (sunset : option datetime) :
  m !! strftime time "%Y" = Some (JDict by_year) →
  by_year !! strftime time "%m-%d" = Some (JDict by_day) →
  by_day !! "sunrise" = Some (JStr sr) →
  by_day !! "sunset" = Some (JStr ss) →
  m !! "timezone" = Some tzsource →
  parse ((strftime time "%Y-%m-%d" +:+ "T") +:+ sr) = None →
  str_to_time parse pytz_timezone
    ((strftime time "%Y-%m-%d" +:+ "T") +:+ ss) (hint_of_json tzsource)
  = Ok sunset →
  daytime parse pytz_timezone time (JDict m)
  = Raise (if is_aware time then TypeError else AttributeError).
Proof.
  intros Hy Hd Hsr Hss Htz Hparse Hsunset. unfold daytime.
  cbn -[strftime String.append day_branches str_to_time].
  rewrite Hy. rewrite bool_decide_eq_true_2 by eauto.
  cbn -[strftime String.append day_branches str_to_time]. rewrite Hd.
  cbn -[strftime String.append day_branches str_to_time]. rewrite Hsr, Hss.
  cbn -[strftime String.append day_branches str_to_time]. rewrite Htz.
  cbn -[strftime String.append day_branches str_to_time].
  rewrite Hsunset.
  unfold str_to_time at 1. rewrite Hparse.
  cbn -[strftime String.append].
  by destruct (is_aware time).
Qed.

(** X14.  The answer depends on an aware time only through its date
    fields and its instant: two aware times that show the same date and
    are the same instant in UTC, each in a zone of its own, are classified
    alike. *)
Theorem daytime_same_instant_same_answer (a b : datetime) (daycycle : json)
    (sunrise sunset : datetime) :
  is_aware a = true → is_aware b = true →
  valid_datetime a → valid_datetime b →
  valid_datetime sunrise → valid_datetime sunset →
  year a = year b → month a = month b → day a = day b →
  utc_micros a = utc_micros b →
  resolves parse pytz_timezone a daycycle sunrise sunset →
  daytime parse pytz_timezone a daycycle
  = daytime parse pytz_timezone b daycycle.
Proof.
  intros Ha Hb Hva Hvb Hvsr Hvss Hy Hm Hd Hutc Hres.
  rewrite (daytime_resolved _ _ _ _ _ _ Hres).
  rewrite (daytime_resolved _ _ _ _ _ _
             (resolves_same_date _ _ a b _ _ _ Hy Hm Hd Hres)).
  unfold as_compared. rewrite Ha, Hb.
  rewrite !dt_compare_utc by done. by rewrite Hutc.
Qed.

(** X15.  A table whose sunset is not after its sunrise has no daytime:
    every time of that date, aware or naive, before, between or after the
    two, is classified as false. *)
Theorem daytime_inverted_entry_is_never_day (time : datetime)
    (daycycle : json) (sunrise sunset : datetime) :
  valid_datetime time → valid_datetime sunrise → valid_datetime sunset →
  utc_micros sunset ≤ utc_micros sunrise →
  resolves parse pytz_timezone time daycycle sunrise sunset →
  daytime parse pytz_timezone time daycycle = Ok (Some false).
Proof.
  intros Hvt Hvsr Hvss Hle Hres.
  rewrite (daytime_resolved _ _ _ _ _ _ Hres).
  pose proof (valid_datetime_as_compared time sunrise Hvt) as Hvc.
  rewrite !dt_compare_utc by done.
  destruct (Z.compare_spec (utc_micros (as_compared time sunrise))
              (utc_micros sunrise));
    destruct (Z.compare_spec (utc_micros (as_compared time sunrise))
                (utc_micros sunset)); simpl; try done; lia.
Qed.

End ClassifierMore.

Lemma daytime_unknown_year_is_none_witness :
  daytime iso_parse us_zones (mk_datetime 2016 6 5 12 0 0 0 None) cycle_no_zone
  = Ok None.
Proof.
  apply (daytime_unknown_year_is_none iso_parse us_zones
           (mk_datetime 2016 6 5 12 0 0 0 None)).
  reflexivity.
Defined.

Lemma daytime_missing_timezone_raises_witness :
  daytime iso_parse us_zones (at_2015_06_05 12 0 0 (Some EDT)) cycle_no_zone
  = Raise KeyError.
Proof.
  unfold cycle_no_zone.
  eapply (daytime_missing_timezone_raises iso_parse us_zones
            (at_2015_06_05 12 0 0 (Some EDT)) _ _ _ "07:00" "17:00");
    reflexivity.
Defined.

Lemma daytime_unreadable_sunrise_raises_witness :
  daytime iso_parse us_zones (at_2015_06_05 12 0 0 None) cycle_dawn
  = Raise (if is_aware (at_2015_06_05 12 0 0 None)
           then TypeError else AttributeError).
Proof.
  unfold cycle_dawn.
  eapply (daytime_unreadable_sunrise_raises iso_parse us_zones
            (at_2015_06_05 12 0 0 None) _ _ _ "dawn" "17:00"
            (JStr "America/New_York") (Some sunset_2015_06_05));
    reflexivity.
Defined.

Lemma daytime_same_instant_same_answer_witness :
  daytime iso_parse us_zones (at_2015_06_05 6 0 1 (Some CDT)) cycle_2015
  = daytime iso_parse us_zones (at_2015_06_05 7 0 1 (Some EDT)) cycle_2015.
Proof.
  apply (daytime_same_instant_same_answer iso_parse us_zones
           (at_2015_06_05 6 0 1 (Some CDT)) (at_2015_06_05 7 0 1 (Some EDT))
           cycle_2015 sunrise_2015_06_05 sunset_2015_06_05).
  - reflexivity.
  - reflexivity.
  - repeat split; vm_compute; first [reflexivity | discriminate].
  - repeat split; vm_compute; first [reflexivity | discriminate].
  - repeat split; vm_compute; first [reflexivity | discriminate].
  - repeat split; vm_compute; first [reflexivity | discriminate].
  - reflexivity.
  - reflexivity.
  - reflexivity.
  - reflexivity.
  - apply cycle_2015_resolves.
Defined.

Lemma daytime_inverted_entry_is_never_day_witness :
  daytime iso_parse us_zones (at_2015_06_05 12 0 0 (Some EDT)) cycle_inverted
  = Ok (Some false).
Proof.
  apply (daytime_inverted_entry_is_never_day iso_parse us_zones
           (at_2015_06_05 12 0 0 (Some EDT)) cycle_inverted
           sunset_2015_06_05 sunrise_2015_06_05).
  - repeat split; vm_compute; first [reflexivity | discriminate].
  - repeat split; vm_compute; first [reflexivity | discriminate].
  - repeat split; vm_compute; first [reflexivity | discriminate].
  - vm_compute. discriminate.
  - unfold resolves, cycle_inverted.
    eexists _, _, _, "17:00"%string, "07:00"%string,
      "America/New_York"%string.
    split; [reflexivity|].
    repeat split; vm_compute; reflexivity.
Defined.

(* ================================================================== *)
(** * Further properties of the file functions *)
(* ================================================================== *)

Lemma universal_newlines_no_cr (s : string) :
  str_exists is_cr s = false → universal_newlines s = s.
Proof.
  induction s as [|c s IH]; [done|]. simpl.
  intros [Hc Hs]%orb_false_elim. unfold is_cr in Hc. rewrite Hc.
  by rewrite (IH Hs).
Qed.

Lemma lf_text_no_cr (data : list (list string)) :
  clean_table data → str_exists is_cr (lf_text data) = false.
Proof.
  induction 1 as [|row data Hrow Hdata IH]; [done|].
  simpl. rewrite str_exists_app, (record_body_no_cr row Hrow). simpl.
  exact IH.
Qed.

Lemma universal_newlines_lone_cr (s t : string) :
  str_exists is_cr s = false → no_lf_first t →
  universal_newlines (s +:+ String CR t)
  = s +:+ String LF (universal_newlines t).
Proof.
  induction s as [|c s IH].
  - intros _ Ht. rewrite !append_nil_l. destruct t as [|c' t]; [done|].
    simpl in Ht. cbn -[universal_newlines].
    change (universal_newlines (String CR (String c' t)))
      with (String LF (if Ascii.eqb c' LF then universal_newlines t
                       else universal_newlines (String c' t))).
    by rewrite Ht.
  - simpl. intros [Hc Hs]%orb_false_elim Ht. rewrite !append_cons. simpl.
    unfold is_cr in Hc. rewrite Hc. by rewrite (IH Hs Ht).
Qed.

Lemma record_body_starts_plain (row : list string) :
  Forall (fun cell => clean_cell cell = true) row →
  starts_plain (record_body row).
Proof.
  intros Hrow. pose proof (join_fields_starts_plain row Hrow) as Hstart.
  unfold record_body. destruct (join_fields row); [by destruct row|done].
Qed.

Lemma cr_text_no_lf_first (data : list (list string)) :
  clean_table data → no_lf_first (cr_text data).
Proof.
  destruct 1 as [|row data Hrow Hdata]; [done|]. simpl.
  pose proof (record_body_starts_plain row Hrow) as Hstart.
  destruct (record_body row); [done|]. rewrite append_cons. simpl.
  by destruct Hstart as (_ & Hlf & _).
Qed.

Lemma universal_newlines_cr_text (data : list (list string)) :
  clean_table data → universal_newlines (cr_text data) = lf_text data.
Proof.
  induction 1 as [|row data Hrow Hdata IH]; [done|].
  simpl cr_text. simpl lf_text.
  rewrite (universal_newlines_lone_cr _ _ (record_body_no_cr row Hrow)
             (cr_text_no_lf_first data Hdata)).
  by rewrite IH.
Qed.

(** X16.  [write_csv] replaces the file: when it has returned, the file
    holds the records of the table and nothing of what it held before,
    whether or not it existed; when the name cannot be opened for writing
    it raises the error of [open] and leaves everything as it was. *)
Theorem write_csv_replaces_file (data : list (list string))
    (filename : string) (w : world) :
  (∀ w', write_csv data filename w = (Ok tt, w') →
         files w' !! filename = Some (csv_text data))
  ∧ (∀ e, unwritable w !! filename = Some e →
          write_csv data filename w = (Raise e, w)).
Proof.
  rewrite write_csv_spec. split.
  - intros w'. destruct (unwritable w !! filename); [discriminate|].
    intros [= <-]. simpl. apply lookup_insert_eq.
  - by intros e ->.
Qed.

Lemma write_csv_replaces_file_witness :
  files (write_csv short_table "f.csv" (with_file "f.csv" bad_csv)).2
    !! "f.csv" = Some (csv_text short_table)
  ∧ write_csv sample_table "" no_empty_name
    = (Raise FileNotFoundError, no_empty_name).
Proof.
  split.
  - apply (proj1 (write_csv_replaces_file short_table "f.csv"
                    (with_file "f.csv" bad_csv))).
    reflexivity.
  - apply (proj2 (write_csv_replaces_file sample_table "" no_empty_name)).
    reflexivity.
Defined.

Section ReadersMore.

Variable json_loads : string -> option json.

(** X17.  [read_csv] and [read_json] change no file, however they end;
    and when the file does not exist they raise [FileNotFoundError] and
    leave the whole world, handles included, as it was. *)
Theorem readers_change_no_file (filename : string) (w : world) :
  files (read_csv filename w).2 = files w
  ∧ files (read_json json_loads filename w).2 = files w
  ∧ (files w !! filename = None →
     read_csv filename w = (Raise FileNotFoundError, w)
     ∧ read_json json_loads filename w = (Raise FileNotFoundError, w)).
Proof.
  rewrite read_csv_spec, read_json_spec.
  destruct (files w !! filename) as [text|]; [|done].
  split; [by destruct (read_rows _ _)|]. split; [done|discriminate].
Qed.

End ReadersMore.

(** X18.  [read_csv] takes the three line terminators alike: a file that
    holds the records of a table whose cells have at most 131072
    characters and no carriage return and no NUL in them reads back as
    that table whether its lines end in CR LF, in LF or in a lone CR. *)
Theorem read_csv_any_line_terminator (data : list (list string))
    (filename : string) (w : world) :
  clean_table data →
  within_limit field_size_limit data →
  files w !! filename = Some (csv_text data)
  ∨ files w !! filename = Some (lf_text data)
  ∨ files w !! filename = Some (cr_text data) →
  (read_csv filename w).1 = Ok data.
Proof.
  intros Hclean Hfits Hfile. rewrite read_csv_spec.
  assert (∃ text, files w !! filename = Some text
                  ∧ universal_newlines text = lf_text data)
    as (text & -> & ->).
  { destruct Hfile as [H|[H|H]]; eexists; (split; [exact H|]).
    - by apply universal_newlines_csv_text.
    - by apply universal_newlines_no_cr, lf_text_no_cr.
    - by apply universal_newlines_cr_text. }
  by rewrite (read_rows_table field_size_limit data Hclean Hfits).
Qed.

Lemma read_csv_any_line_terminator_witness :
  (read_csv "mac.csv" (with_file "mac.csv" (cr_text sample_table))).1
  = Ok sample_table.
Proof.
  apply (read_csv_any_line_terminator sample_table "mac.csv").
  - repeat constructor.
  - repeat constructor.
  - right. right. reflexivity.
Defined.

(** Every table is within the limit of its longest cell. *)
Lemma longest_in_row (row : list string) (m limit : Z) :
  foldr (fun cell m' => Z.max (Z.of_nat (String.length cell)) m') m row
  ≤ limit →
  m ≤ limit ∧ Forall (fun cell => fits limit cell = true) row.
Proof.
  induction row as [|cell row IH]; simpl; [by split|].
  intros Hmax. destruct IH as [Hm Hrow]; [lia|].
  split; [done|]. constructor; [|done]. unfold fits. apply Z.leb_le. lia.
Qed.

Lemma within_limit_longest (data : list (list string)) (limit : Z) :
  longest_cell data ≤ limit → within_limit limit data.
Proof.
  induction data as [|row data IH]; [by constructor|].
  unfold longest_cell. cbn [foldr].
  intros [Hm Hrow]%longest_in_row. constructor; [done|]. by apply IH.
Qed.

(** X19.  [write_csv] never writes the same file for two tables: when two
    tables with no carriage return and no NUL in their cells have been
    written and have left the same text in the file, they are the same
    table. *)
Theorem write_csv_injective (d1 d2 : list (list string))
    (filename : string) (w1 w2 : world) :
  clean_table d1 → clean_table d2 →
  (write_csv d1 filename w1).1 = Ok tt →
  (write_csv d2 filename w2).1 = Ok tt →
  files (write_csv d1 filename w1).2 !! filename
  = files (write_csv d2 filename w2).2 !! filename →
  d1 = d2.
Proof.
  intros H1 H2 [_ ->]%write_csv_returned [_ ->]%write_csv_returned.
  intros [= Htext].
  pose (limit := Z.max (longest_cell d1) (longest_cell d2)).
  assert (within_limit limit d1) as Hf1
    by (apply within_limit_longest; lia).
  assert (within_limit limit d2) as Hf2
    by (apply within_limit_longest; lia).
  assert (Ok d1 = Ok d2 :> result (list (list string))) as Heq;
    [|by injection Heq].
  rewrite <- (read_rows_table limit d1 H1 Hf1),
    <- (read_rows_table limit d2 H2 Hf2).
  by rewrite <- (universal_newlines_csv_text d1 H1),
    <- (universal_newlines_csv_text d2 H2), Htext.
Qed.

Lemma write_csv_injective_witness : sample_table = sample_table.
Proof.
  apply (write_csv_injective sample_table sample_table "file2.csv"
           empty_world empty_world).
  - repeat constructor.
  - repeat constructor.
  - reflexivity.
  - reflexivity.
  - reflexivity.
Defined.

(** X21.  The last write wins: after two tables have been written to the
    same file one after the other, reading the file gives the second one
    (its cells of at most 131072 characters, with no carriage return and
    no NUL), with no row or cell of the first left over, however long the
    first was. *)
Theorem write_csv_twice_reads_last (d1 d2 : list (list string))
    (filename : string) (w : world) :
  clean_table d2 →
  within_limit field_size_limit d2 →
  ((_ ← write_csv d1 filename; write_csv d2 filename) w).1 = Ok tt →
  ((_ ← write_csv d1 filename; _ ← write_csv d2 filename; read_csv filename)
     w).1 = Ok d2.
Proof.
  intros Hclean Hfits. unfold mbind, io_bind.
  rewrite (write_csv_spec d1).
  destruct (unwritable w !! filename) as [e|] eqn:Hopen; [discriminate|].
  rewrite (write_csv_spec d2). simpl unwritable. rewrite Hopen.
  intros _. rewrite read_csv_spec. simpl files.
  rewrite lookup_insert_eq.
  rewrite (universal_newlines_csv_text d2 Hclean).
  by rewrite (read_rows_table field_size_limit d2 Hclean Hfits).
Qed.

Lemma write_csv_twice_reads_last_witness :
  ((_ ← write_csv sample_table "file2.csv";
    _ ← write_csv short_table "file2.csv"; read_csv "file2.csv")
     empty_world).1 = Ok short_table.
Proof.
  apply (write_csv_twice_reads_last sample_table short_table "file2.csv").
  - repeat constructor.
  - repeat constructor.
  - reflexivity.
Defined.

Section ZonelessTable.

Variable parse : string -> option datetime.
Variable pytz_timezone : string -> option zone.

(** X22.  With a null [timezone] entry the sunrise and the sunset stay
    naive.  A naive time is then classified by its clock fields alone,
    true exactly when they lie strictly between those of the sunrise and
    those of the sunset; an aware time cannot be compared with them and
    [daytime] raises [TypeError]. *)
Theorem daytime_null_timezone (time : datetime)
    (m by_year by_day : gmap string json) (sr ss : string)
    (sunrise sunset : datetime) :
  m !! strftime time "%Y" = Some (JDict by_year) →
  by_year !! strftime time "%m-%d" = Some (JDict by_day) →
  by_day !! "sunrise" = Some (JStr sr) →
  by_day !! "sunset" = Some (JStr ss) →
  m !! "timezone" = Some JNull →
  parse ((strftime time "%Y-%m-%d" +:+ "T") +:+ sr) = Some sunrise →
  parse ((strftime time "%Y-%m-%d" +:+ "T") +:+ ss) = Some sunset →
  is_aware sunrise = false → is_aware sunset = false →
  daytime parse pytz_timezone time (JDict m)
  = if is_aware time then Raise TypeError
    else Ok (Some (is_gt (fields_compare time sunrise)
                   && is_lt (fields_compare time sunset))).
Proof.
  intros Hy Hd Hsr Hss Htz Hp1 Hp2 Hn1 Hn2. unfold daytime.
  cbn -[strftime String.append day_branches str_to_time].
  rewrite Hy. rewrite bool_decide_eq_true_2 by eauto.
  cbn -[strftime String.append day_branches str_to_time]. rewrite Hd.
  cbn -[strftime String.append day_branches str_to_time]. rewrite Hsr, Hss.
  cbn -[strftime String.append day_branches str_to_time]. rewrite Htz.
  cbn -[strftime String.append day_branches str_to_time].
  unfold str_to_time. rewrite Hp1, Hp2, Hn1, Hn2.
  cbn -[strftime String.append day_branches].
  unfold day_branches, py_and, py_or, py_gt, py_lt, py_le, py_ge, dt_cmp,
    comparable.
  destruct (is_aware time) eqn:Ht.
  - rewrite Hn1. reflexivity.
  - assert (dt_tzinfo sunrise = None) as Hz1
      by (unfold is_aware in Hn1; by destruct (dt_tzinfo sunrise)).
    assert (dt_tzinfo sunset = None) as Hz2
      by (unfold is_aware in Hn2; by destruct (dt_tzinfo sunset)).
    rewrite Hz1. unfold is_aware at 1 2 3 4. simpl dt_tzinfo.
    rewrite Hn1, Hn2. simpl.
    unfold dt_compare, utcoffset. simpl dt_tzinfo. rewrite Hz1, Hz2. simpl.
    change (fields_compare (replace_tzinfo time None) sunrise)
      with (fields_compare time sunrise).
    change (fields_compare (replace_tzinfo time None) sunset)
      with (fields_compare time sunset).
    unfold is_le, is_ge.
    by destruct (fields_compare time sunrise), (fields_compare time sunset).
Qed.

End ZonelessTable.

Lemma daytime_null_timezone_witness :
  daytime iso_parse us_zones (at_2015_06_05 12 0 0 (Some EDT)) cycle_null_zone
  = if is_aware (at_2015_06_05 12 0 0 (Some EDT)) then Raise TypeError
    else Ok (Some (is_gt (fields_compare (at_2015_06_05 12 0 0 (Some EDT))
                            (at_2015_06_05 7 0 0 None))
                   && is_lt (fields_compare (at_2015_06_05 12 0 0 (Some EDT))
                               (at_2015_06_05 17 0 0 None)))).
Proof.
  unfold cycle_null_zone.
  eapply (daytime_null_timezone iso_parse us_zones
            (at_2015_06_05 12 0 0 (Some EDT)) _ _ _ "07:00" "17:00");
    reflexivity.
Defined.

(* ================================================================== *)
(** * A last record with no line terminator *)
(* ================================================================== *)

Section LastRecord.

Variable limit : Z.

(** The end of the text in place of the end of a line: the end-of-line
    mark the reader feeds itself closes the field and the record. *)
Lemma stream_end_of_text (st : parser_state) (fs : list string) (f : string) :
  st = START_FIELD ∨ st = IN_FIELD ∨ st = QUOTE_IN_QUOTED_FIELD →
  stream limit (mk_reader st fs f) true EmptyString = Ok [fs ++ [f]].
Proof. intros [-> | [-> | ->]]; reflexivity. Qed.

Lemma stream_in_field_end (s : string) (fs : list string) (f : string) :
  str_exists special s = false →
  clean_cell s = true →
  Z.of_nat (String.length f + String.length s) ≤ limit →
  stream limit (mk_reader IN_FIELD fs f) true s = Ok [fs ++ [f +:+ s]].
Proof.
  revert f. induction s as [|c s IH]; intros f Hplain Hclean Hlen.
  - rewrite append_nil_r. apply stream_end_of_text. tauto.
  - simpl in Hplain, Hclean, Hlen.
    apply orb_false_elim in Hplain as [Hc Hplain].
    apply andb_true_iff in Hclean as [Hcc Hclean].
    assert (Ascii.eqb c NUL = false) as Hnul.
    { unfold clean_char in Hcc. apply andb_true_iff in Hcc as [_ Hcc].
      by apply negb_true_iff in Hcc. }
    rewrite (stream_step limit _ _ _ _ _ Hnul
               (proj2 (proj2 (proj2 (special_false c Hc))))
               (process_in_field_plain limit fs f c Hc Hnul ltac:(lia))).
    rewrite (IH _ Hplain Hclean) by (rewrite str_length_app; simpl; lia).
    by rewrite append_assoc.
Qed.

Lemma stream_in_quoted_end (s : string) (fs : list string) (f : string)
    (mid : bool) :
  clean_cell s = true →
  Z.of_nat (String.length f + String.length s) ≤ limit →
  stream limit (mk_reader IN_QUOTED_FIELD fs f) mid
    (field_data s +:+ String DQUOTE EmptyString)
  = Ok [fs ++ [f +:+ s]].
Proof.
  revert f mid. induction s as [|c s IH]; intros f mid Hclean Hlen.
  - simpl field_data. rewrite append_nil_l, append_nil_r.
    rewrite (stream_step limit _ (mk_reader QUOTE_IN_QUOTED_FIELD fs f));
      [|done|done|done].
    apply stream_end_of_text. tauto.
  - simpl in Hclean, Hlen. apply andb_true_iff in Hclean as [Hcc Hclean].
    assert (Ascii.eqb c NUL = false) as Hnul.
    { unfold clean_char in Hcc. apply andb_true_iff in Hcc as [_ Hcc].
      by apply negb_true_iff in Hcc. }
    assert (Z.of_nat (String.length f) < limit) as Hf by lia.
    assert (Z.of_nat (String.length (f +:+ String c EmptyString)
                      + String.length s) ≤ limit) as Hlen'
      by (rewrite str_length_app; simpl; lia).
    assert (f +:+ String c s = (f +:+ String c EmptyString) +:+ s) as ->
      by (by rewrite append_assoc).
    simpl field_data.
    destruct (Ascii.eqb_spec c DQUOTE) as [-> | Hdq].
    + rewrite !append_cons.
      rewrite (stream_step limit _ (mk_reader QUOTE_IN_QUOTED_FIELD fs f));
        [|done|done|done].
      rewrite (stream_step limit _
                 (mk_reader IN_QUOTED_FIELD fs (f +:+ String DQUOTE EmptyString)));
        [|done|done|by apply process_doubled_quote].
      by apply IH.
    + apply Ascii.eqb_neq in Hdq. rewrite append_cons.
      destruct (Ascii.eqb_spec c LF) as [-> | Hlf].
      * rewrite (stream_step_lf limit _
                   (mk_reader IN_QUOTED_FIELD fs (f +:+ String LF EmptyString))
                   (mk_reader IN_QUOTED_FIELD fs (f +:+ String LF EmptyString)));
          [|by apply process_in_quoted_other|done].
        simpl. by apply IH.
      * apply Ascii.eqb_neq in Hlf.
        rewrite (stream_step limit _ _ _ _ _ Hnul Hlf
                   (process_in_quoted_other limit fs f c Hdq Hnul Hf)).
        by apply IH.
Qed.

Lemma stream_field_end (s : string) (fs : list string) :
  clean_cell s = true →
  fits limit s = true →
  stream limit (mk_reader START_FIELD fs EmptyString) true (format_field s)
  = Ok [fs ++ [s]].
Proof.
  intros Hclean Hfits%Z.leb_le. unfold format_field.
  destruct (str_exists special s) eqn:Hsp.
  - unfold quoted.
    rewrite (stream_step limit _ (mk_reader IN_QUOTED_FIELD fs EmptyString));
      [|done|done|done].
    by rewrite (stream_in_quoted_end s fs EmptyString true Hclean).
  - destruct s as [|c s].
    + apply stream_end_of_text. tauto.
    + simpl in Hsp, Hclean, Hfits.
      apply orb_false_elim in Hsp as [Hc Hsp].
      apply andb_true_iff in Hclean as [Hcc Hclean].
      assert (Ascii.eqb c NUL = false) as Hnul.
      { unfold clean_char in Hcc. apply andb_true_iff in Hcc as [_ Hcc].
        by apply negb_true_iff in Hcc. }
      rewrite (stream_step limit _ _ _ _ _ Hnul
                 (proj2 (proj2 (proj2 (special_false c Hc))))
                 (process_start_field_plain limit fs EmptyString c Hc Hnul
                    ltac:(simpl; lia))).
      rewrite append_nil_l.
      by rewrite (stream_in_field_end s fs _ Hsp Hclean) by (simpl; lia).
Qed.

Lemma stream_fields_end (row : list string) (fs : list string) :
  row ≠ [] →
  Forall (fun cell => clean_cell cell = true) row →
  Forall (fun cell => fits limit cell = true) row →
  stream limit (mk_reader START_FIELD fs EmptyString) true (join_fields row)
  = Ok [fs ++ row].
Proof.
  revert fs. induction row as [|f row IH]; intros fs Hne Hclean Hfits; [done|].
  apply Forall_cons in Hclean as [Hf Hrow].
  apply Forall_cons in Hfits as [Hff Hfrow].
  destruct row as [|g row].
  - simpl join_fields. by apply stream_field_end.
  - change (join_fields (f :: g :: row))
      with (format_field f +:+ String COMMA (join_fields (g :: row))).
    rewrite (stream_field limit f fs true COMMA _ Hf Hff); [|tauto].
    unfold after_field. simpl Ascii.eqb. cbv iota.
    rewrite (IH (fs ++ [f])); [|done|done|done].
    by rewrite <- app_assoc.
Qed.

(** A last record that the end of the text cuts short of its line
    terminator is read as if it had one. *)
Lemma stream_record_end (row : list string) :
  row ≠ [] →
  Forall (fun cell => clean_cell cell = true) row →
  Forall (fun cell => fits limit cell = true) row →
  stream limit fresh_reader false (record_body row) = Ok [row].
Proof.
  intros Hne Hclean Hfits. unfold record_body.
  pose proof (join_fields_starts_plain row Hclean) as Hstart.
  destruct (join_fields row) as [|c body] eqn:Hjoin.
  - destruct row as [|f row]; [done|].
    destruct (join_fields_empty f row Hjoin) as [-> ->].
    reflexivity.
  - destruct Hstart as (Hnul & Hlf & Hcr).
    pose proof (stream_fields_end row [] Hne Hclean Hfits) as Hfields.
    rewrite Hjoin in Hfields. change ([] ++ row) with row in Hfields.
    rewrite <- Hfields.
    unfold fresh_reader. simpl.
    rewrite Hnul.
    by rewrite (process_start_record limit [] EmptyString c Hnul Hlf Hcr).
Qed.

Lemma stream_table_end (data : list (list string)) (row : list string) :
  clean_table data → within_limit limit data → row ≠ [] →
  Forall (fun cell => clean_cell cell = true) row →
  Forall (fun cell => fits limit cell = true) row →
  stream limit fresh_reader false (lf_text data +:+ record_body row)
  = Ok (data ++ [row]).
Proof.
  intros Hdata Hfits Hne Hrow Hfrow. revert Hfits.
  induction Hdata as [|r data Hr Hdata IH].
  - intros _. rewrite append_nil_l. by apply stream_record_end.
  - intros [Hfr Hfdata]%Forall_cons.
    simpl lf_text. rewrite append_assoc, append_cons.
    rewrite (stream_record limit r false _ Hr Hfr). by rewrite (IH Hfdata).
Qed.

End LastRecord.

Lemma universal_newlines_csv_text_then (data : list (list string))
    (tail : string) :
  clean_table data → str_exists is_cr tail = false →
  universal_newlines (csv_text data +:+ tail) = lf_text data +:+ tail.
Proof.
  intros Hdata Htail.
  induction Hdata as [|row data Hrow Hdata IH].
  - rewrite !append_nil_l. by apply universal_newlines_no_cr.
  - simpl. rewrite format_row_body, !append_assoc, !append_cons, append_nil_l.
    rewrite (universal_newlines_record _ _ (record_body_no_cr row Hrow)).
    by rewrite IH.
Qed.

(** X23.  The last record of a file needs no line terminator: a file
    that holds the records of a table, lines ending in CR LF or in LF,
    followed by the record of one more row that is not empty and that
    nothing follows, reads back as the table with that row at its end
    (cells of at most 131072 characters, with no carriage return and no
    NUL). *)
Theorem read_csv_unterminated_last_record (data : list (list string))
    (row : list string) (filename : string) (w : world) :
  clean_table (data ++ [row]) →
  within_limit field_size_limit (data ++ [row]) →
  row ≠ [] →
  files w !! filename = Some (csv_text data +:+ record_body row)
  ∨ files w !! filename = Some (lf_text data +:+ record_body row) →
  (read_csv filename w).1 = Ok (data ++ [row]).
Proof.
  intros [Hdata Hrow]%Forall_app [Hfits Hfrow]%Forall_app Hne Hfile.
  apply Forall_inv in Hrow, Hfrow.
  rewrite read_csv_spec.
  assert (∃ text, files w !! filename = Some text
                  ∧ universal_newlines text = lf_text data +:+ record_body row)
    as (text & -> & ->).
  { destruct Hfile as [H|H]; eexists; (split; [exact H|]).
    - apply universal_newlines_csv_text_then; [done|].
      by apply record_body_no_cr.
    - apply universal_newlines_no_cr.
      rewrite str_exists_app, (lf_text_no_cr data Hdata).
      by apply record_body_no_cr. }
  unfold splitlines.
  rewrite (read_rows_stream field_size_limit _ EmptyString fresh_reader
             fresh_reader (data ++ [row])); [done|reflexivity|].
  by apply stream_table_end.
Qed.

Lemma read_csv_unterminated_last_record_witness :
  (read_csv "cut.csv"
     (with_file "cut.csv"
        (csv_text sample_table +:+ record_body ["S00411"; ""]%string))).1
  = Ok (sample_table ++ [["S00411"; ""]%string]).
Proof.
  apply (read_csv_unterminated_last_record sample_table
           ["S00411"; ""]%string "cut.csv").
  - repeat constructor.
  - repeat constructor.
  - discriminate.
  - left. reflexivity.
Defined.
